(** * Trajectory synthesis of ghost-cursor: a shallow embedding

    The movement algorithm ([BezierMovementAlgorithm]), the trajectory facade
    ([MovementEngine]) and the cursor-state controller are embedded as Rocq
    functions.

    Numbers: a JavaScript [number] is modelled by a real number, so the
    rounding error of IEEE doubles, [NaN] and the infinities are outside the
    model; results of [Math.ceil], [Math.round] and [Date.now] are integers.
    The clamp of the coordinates is embedded a second time, in module
    [NaNAware], over numbers that may be [NaN].
    Effects: [Math.random] is a single global stream, modelled by the
    sequence of its results and a counter of the draws made so far, which
    every function that draws threads through; [Date.now] is a reading of the
    clock taken as a parameter. *)

From Stdlib Require Import Reals Lra Lia ZArith List String Arith.
Import ListNotations.

Open Scope R_scope.

(** ** Numeric primitives of the host language *)

Module JS.

(** [Math.floor]. *)
Definition Math_floor (r : R) : Z := Int_part r.

(** [Math.ceil]: the least integer not below [r]. *)
Definition Math_ceil (r : R) : Z := (- Int_part (- r))%Z.

(** [Math.round]: the nearest integer, halves rounded up. *)
Definition Math_round (r : R) : Z := Int_part (r + / 2).

(** [Math.log2], on positive arguments. *)
Definition Math_log2 (r : R) : R := ln r / ln 2.

(** [Math.max], of two numbers; with [NaN] it is [NaNAware.Math_max]. *)
Definition Math_max (a b : R) : R := Rmax a b.

End JS.
Import JS.

(** ** Data model (types.ts, math.ts) *)

(** [Vector] and [TimedVector]: an object with [x], [y] and, when it is a
    timed vector, the key [timestamp]. *)
Record Vector : Type := mkVector {
  x : R;
  y : R;
  timestamp : option Z
}.

Definition vec (a b : R) : Vector := mkVector a b None.

(** puppeteer's [BoundingBox]. *)
Record BoundingBox : Type := mkBox {
  box_x : R;
  box_y : R;
  box_width : R;
  box_height : R
}.

(** [Vector | BoundingBox], the destination of a move. *)
Inductive Destination : Type :=
| ToPoint (p : Vector)
| ToBox (b : BoundingBox).

Record MovementOptions : Type := mkOptions {
  spreadOverride : option R;
  moveSpeed : option R;
  useTimestamps : option bool
}.

Record MovementContext : Type := mkContext {
  ctx_start : Vector;
  ctx_end : Destination;
  ctx_options : MovementOptions
}.

Record MovementMetrics : Type := mkMetrics {
  steps : nat;
  distance : R;
  width : R;
  duration : option Z
}.

Record MovementTrace : Type := mkTrace {
  algorithm : string;
  vectors : list Vector;
  metrics : MovementMetrics
}.

(** A cubic curve, held by its four control points. *)
Record Bezier : Type := mkBezier {
  p0 : Vector;
  p1 : Vector;
  p2 : Vector;
  p3 : Vector
}.

(** ** Geometry primitives *)

Module Geometry.

Definition origin : Vector := vec 0 0.

(** Modelled from the spec: math.ts is missing; [direction(a,b)] is
    [b - a] as a vector. *)
Definition direction (a b : Vector) : Vector := vec (x b - x a) (y b - y a).

(** Modelled from the spec: math.ts is missing; [magnitude(v)] is the
    Euclidean norm. *)
Definition magnitude (a : Vector) : R := sqrt (x a * x a + y a * y a).

(** Modelled from the spec: math.ts is missing; [extrapolate(p0,p1)]
    continues the ray from [p0] through [p1] by the same displacement. *)
Definition extrapolate (a b : Vector) : Vector :=
  vec (x b + (x b - x a)) (y b + (y b - y a)).

(** Modelled from the spec: math.ts is missing; the curve speed is the
    magnitude of the first derivative of the cubic curve through the
    four-point window, at parameter [t]. *)
Definition bezierCurveSpeed (t : R) (P0 P1 P2 P3 : Vector) : R :=
  let B1 := 3 * (1 - t) * (1 - t) * (x P1 - x P0)
            + 6 * (1 - t) * t * (x P2 - x P1)
            + 3 * t * t * (x P3 - x P2) in
  let B2 := 3 * (1 - t) * (1 - t) * (y P1 - y P0)
            + 6 * (1 - t) * t * (y P2 - y P1)
            + 3 * t * t * (y P3 - y P2) in
  sqrt (B1 * B1 + B2 * B2).

(** Modelled from the spec: the curve type comes from a package that is
    not part of the sources; a point of the cubic curve at parameter
    [t]. *)
Definition compute (c : Bezier) (t : R) : Vector :=
  let mt := 1 - t in
  let a := mt * mt * mt in
  let b := mt * mt * t * 3 in
  let c' := mt * t * t * 3 in
  let d := t * t * t in
  vec (a * x (p0 c) + b * x (p1 c) + c' * x (p2 c) + d * x (p3 c))
      (a * y (p0 c) + b * y (p1 c) + c' * y (p2 c) + d * y (p3 c)).

(** Modelled from the spec: [sample(n)] is [n+1] evenly-parameterized
    points of the curve, at the parameters [i/n] for [i = 0..n]. For
    [n = 0] the single point is the one at parameter 0: a quotient by 0 is
    0 here. *)
Definition sample (c : Bezier) (n : nat) : list Vector :=
  map (fun i => compute c (INR i / INR n)) (seq 0 (S n)).

(** [curve.getLUT(steps)], the step count being an integer-valued
    number. *)
Definition getLUT (c : Bezier) (steps : Z) : list Vector :=
  sample c (Z.to_nat steps).

End Geometry.
Import Geometry.

(** [TimedVector], as [generateTimestamps] builds it. *)
Record TimedVector : Type := mkTimed {
  tx : R;
  ty : R;
  ttimestamp : Z
}.

(** A timed vector seen as a member of [Vector | TimedVector]. *)
Definition asVector (t : TimedVector) : Vector :=
  mkVector (tx t) (ty t) (Some (ttimestamp t)).

(** ** The default algorithm (BezierMovementAlgorithm) *)

Section Algorithm.

(** The results of the successive calls of [Math.random]; the state
    threaded through the functions is the number of calls made so far. *)
Variable Math_random : nat -> R.

(** The reading of the clock, [Date.now()]. *)
Variable Date_now : Z.

(** The placement of the two interior control points (math.ts, missing):
    from the end points, the spread override and the draws made so far,
    the two anchors and the new number of draws. *)
Variable randomAnchors : Vector -> Vector -> option R -> nat -> Vector * Vector * nat.

(** [curve.length()], the numerical arc length of the curve package. *)
Variable curveLength : Bezier -> R.

Definition DEFAULT_WIDTH : R := 100.
Definition MIN_STEPS : R := 25.

Definition random (n : nat) : R * nat := (Math_random n, S n).

(** Modelled from the spec: math.ts is missing; the curve is built from
    four control points: start, two randomized interior points, end. *)
Definition bezierCurve (start finish : Vector) (overrideSpread : option R) (n : nat)
  : Bezier * nat :=
  let '(a1, a2, n') := randomAnchors start finish overrideSpread n in
  (mkBezier start a1 a2 finish, n').

Definition fitts (distance width : R) : R :=
  let a := 0 in
  let b := 2 in
  let id := Math_log2 (distance / width + 1) in
  a + b * id.

(** The loop of [timeToMove]: [for (let t = 0; t < 1; t += dt)]. *)
Fixpoint integrate (fuel : nat) (P0 P1 P2 P3 : Vector) (dt t total : R) : R :=
  match fuel with
  | O => total
  | S fuel' =>
      if Rlt_dec t 1 then
        let v1 := bezierCurveSpeed (t * dt) P0 P1 P2 P3 in
        let v2 := bezierCurveSpeed t P0 P1 P2 P3 in
        integrate fuel' P0 P1 P2 P3 dt (t + dt) (total + (v1 + v2) * dt / 2)
      else total
  end.

(** [timeToMove], a closure over [speed] in the source. In exact
    arithmetic the loop leaves by its condition after [samples] rounds
    (lemma [integrate_fuel]), which is the fuel given. In doubles the sum
    of [samples] steps of [1 / samples] may stay below 1, and the loop then
    makes one round more; that round is outside the model. *)
Definition timeToMove (speed : R) (P0 P1 P2 P3 : Vector) (samples : nat) : Z :=
  let dt := 1 / INR samples in
  let total := integrate samples P0 P1 P2 P3 dt 0 0 in
  Math_round (total / speed).

Definition timedOrigin : TimedVector := mkTimed 0 0 0.

(** The body of the loop of [generateTimestamps] at index [i]. *)
Definition stampAt (vectors : list Vector) (speed : R) (i : nat)
           (timedVectors : list TimedVector) : TimedVector :=
  let vi := nth i vectors origin in
  if (i =? 0)%nat then mkTimed (x vi) (y vi) Date_now
  else
    let P0 := nth (i - 1) vectors origin in
    let P1 := vi in
    let P2 := if (i + 1 <? List.length vectors)%nat
              then nth (i + 1) vectors origin else extrapolate P0 P1 in
    let P3 := if (i + 2 <? List.length vectors)%nat
              then nth (i + 2) vectors origin else extrapolate P1 P2 in
    let time := timeToMove speed P0 P1 P2 P3 (List.length vectors) in
    mkTimed (x vi) (y vi)
            (ttimestamp (nth (i - 1) timedVectors timedOrigin) + time)%Z.

(** [for (let i = 0; i < vectors.length; i++)], with [todo] rounds left. *)
Fixpoint stampLoop (vectors : list Vector) (speed : R) (todo i : nat)
         (timedVectors : list TimedVector) : list TimedVector :=
  match todo with
  | O => timedVectors
  | S todo' =>
      stampLoop vectors speed todo' (S i)
                (timedVectors ++ [stampAt vectors speed i timedVectors])
  end.

(** The divisor of [timeToMove]:
    [options.moveSpeed ?? (Math.random() * 0.5 + 0.5)]. *)
Definition timestampSpeed (options : MovementOptions) (n : nat) : R * nat :=
  match moveSpeed options with
  | Some s => (s, n)
  | None => let '(r, n') := random n in (r * 0.5 + 0.5, n')
  end.

Definition generateTimestamps (vectors : list Vector) (options : MovementOptions)
           (n : nat) : list TimedVector * nat :=
  let '(speed, n') := timestampSpeed options n in
  (stampLoop vectors speed (List.length vectors) 0 [], n').

Definition clampPositive (vectors : list Vector) (options : MovementOptions)
           (n : nat) : list Vector * nat :=
  let clampedVectors :=
    map (fun vector => vec (Math_max 0 (x vector)) (Math_max 0 (y vector))) vectors in
  match useTimestamps options with
  | Some true =>
      let '(timed, n') := generateTimestamps clampedVectors options n in
      (map asVector timed, n')
  | _ => (clampedVectors, n)
  end.

(** [computeDuration]. A last vector without the key [timestamp] after a
    first one with it would give [NaN], which the model does not have;
    no list built by [clampPositive] is of that kind. *)
Definition computeDuration (vectors : list Vector) : option Z :=
  match vectors with
  | [] => None
  | first :: _ =>
      match timestamp first with
      | None => None
      | Some t0 =>
          match timestamp (nth (List.length vectors - 1) vectors first) with
          | Some t1 => Some (t1 - t0)%Z
          | None => None
          end
      end
  end.

Definition toVector (point : Destination) : Vector :=
  match point with
  | ToPoint p => vec (x p) (y p)
  | ToBox b => vec (box_x b) (box_y b)
  end.

Definition buildMetrics (start finish : Vector) (width : R) (vectors : list Vector)
  : MovementMetrics :=
  {| steps := List.length vectors;
     distance := magnitude (direction start finish);
     width := width;
     duration := computeDuration vectors |}.

(** ['width' in end && end.width !== 0 ? end.width : DEFAULT_WIDTH]. *)
Definition targetWidth (e : Destination) : R :=
  match e with
  | ToBox b => if Req_dec_T (box_width b) 0 then DEFAULT_WIDTH else box_width b
  | ToPoint _ => DEFAULT_WIDTH
  end.

(** The speed factor of [generate]. *)
Definition speedFactor (options : MovementOptions) (n : nat) : R * nat :=
  match moveSpeed options with
  | Some s => if Rlt_dec 0 s then (25 / s, n) else random n
  | None => random n
  end.

(** [Math.ceil((Math.log2(fitts(length, width) + 1) + baseTime) * 3)]. *)
Definition stepCount (length width speed : R) : Z :=
  let baseTime := speed * MIN_STEPS in
  Math_ceil ((Math_log2 (fitts length width + 1) + baseTime) * 3).

Definition bezier_name : string := "bezier-default".

(** [BezierMovementAlgorithm.generate]. *)
Definition generate (context : MovementContext) (n : nat) : MovementTrace * nat :=
  let start := ctx_start context in
  let options := ctx_options context in
  let finish := toVector (ctx_end context) in
  let width := targetWidth (ctx_end context) in
  let '(curve, n1) := bezierCurve start finish (spreadOverride options) n in
  let length := curveLength curve * 0.8 in
  let '(speed, n2) := speedFactor options n1 in
  let steps := stepCount length width speed in
  let '(vectors, n3) := clampPositive (getLUT curve steps) options n2 in
  ({| algorithm := bezier_name;
      vectors := vectors;
      metrics := buildMetrics start finish width vectors |}, n3).

End Algorithm.

(** ** The movement-algorithm contract and the trajectory facade *)

Module Engine.

(** What a call of [generate] gives: a trace, or a thrown error. *)
Inductive Outcome : Type :=
| Returned (trace : MovementTrace)
| Threw (message : string).

(** [MovementAlgorithm]. An implementation may keep state and may use the
    host (random source, clock); [W] is the state it runs in. *)
Record MovementAlgorithm (W : Type) : Type := mkAlgorithm {
  name : string;
  alg_generate : MovementContext -> W -> Outcome * W
}.
Arguments name {W} _.
Arguments alg_generate {W} _ _ _.

(** [normalizeOptions(options?)]. *)
Definition normalizeOptions (options : option MovementOptions) : MovementOptions :=
  {| spreadOverride := match options with Some o => spreadOverride o | None => None end;
     moveSpeed := match options with Some o => moveSpeed o | None => None end;
     useTimestamps :=
       Some (match options with
             | Some o => match useTimestamps o with Some b => b | None => false end
             | None => false
             end) |}.

(** [MovementEngine.generate]. *)
Definition MovementEngine_generate {W : Type} (algorithm : MovementAlgorithm W)
           (start : Vector) (end_ : Destination) (options : option MovementOptions)
           (w : W) : Outcome * W :=
  let context := {| ctx_start := start;
                    ctx_end := end_;
                    ctx_options := normalizeOptions options |} in
  alg_generate algorithm context w.

(** [new BezierMovementAlgorithm()], running in the number of draws made
    so far. *)
Definition BezierMovementAlgorithm (Math_random : nat -> R) (Date_now : Z)
           (randomAnchors : Vector -> Vector -> option R -> nat -> Vector * Vector * nat)
           (curveLength : Bezier -> R) : MovementAlgorithm nat :=
  {| name := bezier_name;
     alg_generate := fun context n =>
       let '(trace, n') :=
         generate Math_random Date_now randomAnchors curveLength context n in
       (Returned trace, n') |}.

End Engine.
Import Engine.

(** ** The cursor-state controller *)

Module Controller.

Section Cursor.

(** The state of the host: the transport and whatever the algorithm
    runs in. *)
Variable W : Type.

(** The transport: dispatch of one positional event, awaited; [false]
    is a failure (rejected, or the host disconnected). *)
Variable dispatch : Vector -> W -> bool * W.

Variable algorithm : MovementAlgorithm W.

(** Per-operation options of the controller: those of the trace
    generation and the pacing ones. *)
Record MoveOptions : Type := mkMoveOptions {
  mo_spreadOverride : option R;
  mo_moveSpeed : option R;
  mo_useTimestamps : option bool;
  mo_moveDelay : option R;
  mo_randomizeMoveDelay : option bool
}.

(** The configured defaults. *)
Variable defaultOptions : MoveOptions.

Definition orElse {A : Type} (a b : option A) : option A :=
  match a with Some v => Some v | None => b end.

(** Modelled from the spec: the controller is missing; caller-supplied
    options are merged over the configured defaults, field by field,
    unset fields inheriting. *)
Definition mergeOptions (options : option MoveOptions) : MoveOptions :=
  match options with
  | None => defaultOptions
  | Some o =>
      {| mo_spreadOverride := orElse (mo_spreadOverride o) (mo_spreadOverride defaultOptions);
         mo_moveSpeed := orElse (mo_moveSpeed o) (mo_moveSpeed defaultOptions);
         mo_useTimestamps := orElse (mo_useTimestamps o) (mo_useTimestamps defaultOptions);
         mo_moveDelay := orElse (mo_moveDelay o) (mo_moveDelay defaultOptions);
         mo_randomizeMoveDelay :=
           orElse (mo_randomizeMoveDelay o) (mo_randomizeMoveDelay defaultOptions) |}
  end.

Definition movementOptions (o : MoveOptions) : MovementOptions :=
  {| spreadOverride := mo_spreadOverride o;
     moveSpeed := mo_moveSpeed o;
     useTimestamps := mo_useTimestamps o |}.

(** The cursor state: the current position. *)
Record CursorState : Type := mkCursor { location : Vector }.

Inductive MoveResult : Type :=
| Moved (trace : MovementTrace)
| GenerationError (message : string)
| TransportFailure.

(** Modelled from the spec: the controller is missing; vectors are
    dispatched in array order, each awaited before the next; a failure
    aborts the rest and leaves the position at the last vector
    dispatched with success. The waits between dispatches change no
    state and are left out. *)
Fixpoint tracePath (vectors : list Vector) (position : Vector) (w : W)
  : bool * Vector * W :=
  match vectors with
  | [] => (true, position, w)
  | v :: rest =>
      let '(ok, w') := dispatch v w in
      if ok then tracePath rest v w' else (false, position, w')
  end.

(** Modelled from the spec: the controller is missing; [moveTo]
    requests a trace from the facade with the current position as
    start, dispatches it, and on full success the position is the last
    dispatched vector. *)
Definition moveTo (c : CursorState) (destination : Destination)
           (options : option MoveOptions) (w : W) : MoveResult * CursorState * W :=
  let merged := mergeOptions options in
  let '(outcome, w1) :=
    MovementEngine_generate algorithm (location c) destination
                            (Some (movementOptions merged)) w in
  match outcome with
  | Threw message => (GenerationError message, c, w1)
  | Returned trace =>
      let '(ok, position, w2) := tracePath (vectors trace) (location c) w1 in
      (if ok then Moved trace else TransportFailure, mkCursor position, w2)
  end.

Definition getLocation (c : CursorState) : Vector := location c.

(** A sequence of [moveTo] calls on one controller, all successful: the
    traces of the moves, in order; [None] when a call fails. *)
Fixpoint moves (calls : list (Destination * option MoveOptions))
         (c : CursorState) (w : W)
  : option (list MovementTrace * CursorState * W) :=
  match calls with
  | [] => Some ([], c, w)
  | (destination, options) :: rest =>
      match moveTo c destination options w with
      | (Moved trace, c', w') =>
          match moves rest c' w' with
          | Some (traces, c'', w'') => Some (trace :: traces, c'', w'')
          | None => None
          end
      | _ => None
      end
  end.

End Cursor.

(** An algorithm under observation: the same algorithm, which also
    appends every request it is handed to a record kept beside its state,
    as the algorithms of the tests do with their [contexts]. *)
Definition observed {W : Type} (algorithm : MovementAlgorithm W)
  : MovementAlgorithm (W * list MovementContext) :=
  {| name := name algorithm;
     alg_generate := fun context s =>
       let '(outcome, w') := alg_generate algorithm context (fst s) in
       (outcome, (w', snd s ++ [context])) |}.

(** The transport beside an observed algorithm: it leaves the record
    alone. *)
Definition observedDispatch {W : Type} (dispatch : Vector -> W -> bool * W)
           (v : Vector) (s : W * list MovementContext)
  : bool * (W * list MovementContext) :=
  let '(ok, w') := dispatch v (fst s) in (ok, (w', snd s)).

(** The position a dispatched trace leaves: its last vector, or the
    position before it when it has no vector. *)
Definition positionAfter (position : Vector) (trace : MovementTrace) : Vector :=
  nth (List.length (vectors trace) - 1) (vectors trace) position.

(** The positions from which the moves of a sequence start: the first
    from the position of the cursor, each later one from the position the
    move before it left. *)
Fixpoint chainedStarts (position : Vector) (traces : list MovementTrace) : list Vector :=
  match traces with
  | [] => []
  | trace :: rest => position :: chainedStarts (positionAfter position trace) rest
  end.

End Controller.

(** ** Derived notions used by the statements *)

(** The image of a vector under the clamp of [clampPositive]. *)
Definition clamped (v : Vector) : Vector :=
  vec (Math_max 0 (x v)) (Math_max 0 (y v)).

(** Two points with the same coordinates. *)
Definition sameCoords (a b : Vector) : Prop := x a = x b /\ y a = y b.

(** The first and the last element of a trace. *)
Definition firstVector (vs : list Vector) : Vector := nth 0 vs origin.
Definition lastVector (vs : list Vector) : Vector := nth (List.length vs - 1) vs origin.

(** The timestamp of a vector of a timed trace. *)
Definition stampOf (v : Vector) : Z :=
  match timestamp v with Some t => t | None => 0%Z end.

(** A destination a caller can pass: a region has no negative width. *)
Definition wellFormed (e : Destination) : Prop :=
  match e with
  | ToPoint _ => True
  | ToBox b => 0 <= box_width b
  end.

(** The curve, the speed factor and the step count of one call of
    [generate]: the prefix of its body up to [steps]. *)
Definition generateCurve (randomAnchors : Vector -> Vector -> option R -> nat -> Vector * Vector * nat)
           (context : MovementContext) (n : nat) : Bezier * nat :=
  bezierCurve randomAnchors (ctx_start context) (toVector (ctx_end context))
              (spreadOverride (ctx_options context)) n.

Definition generateSpeed (Math_random : nat -> R)
           (randomAnchors : Vector -> Vector -> option R -> nat -> Vector * Vector * nat)
           (context : MovementContext) (n : nat) : R * nat :=
  speedFactor Math_random (ctx_options context)
              (snd (generateCurve randomAnchors context n)).

Definition generateSteps (Math_random : nat -> R)
           (randomAnchors : Vector -> Vector -> option R -> nat -> Vector * Vector * nat)
           (curveLength : Bezier -> R)
           (context : MovementContext) (n : nat) : Z :=
  let curve := fst (generateCurve randomAnchors context n) in
  let length := curveLength curve * 0.8 in
  let speed := fst (generateSpeed Math_random randomAnchors context n) in
  stepCount length (targetWidth (ctx_end context)) speed.

(** The four-point window of [generateTimestamps] at index [i]. *)
Definition windowAt (vectors : list Vector) (i : nat) : Vector * Vector * Vector * Vector :=
  let P0 := nth (i - 1) vectors origin in
  let P1 := nth i vectors origin in
  let P2 := if (i + 1 <? List.length vectors)%nat
            then nth (i + 1) vectors origin else extrapolate P0 P1 in
  let P3 := if (i + 2 <? List.length vectors)%nat
            then nth (i + 2) vectors origin else extrapolate P1 P2 in
  (P0, P1, P2, P3).

(** The elapsed time [generateTimestamps] would give at index [i] with the
    divisor [speed]. *)
Definition elapsedAt (speed : R) (vectors : list Vector) (i : nat) : Z :=
  let '(P0, P1, P2, P3) := windowAt vectors i in
  timeToMove speed P0 P1 P2 P3 (List.length vectors).

(** ** Numbers that may be NaN

    The reals of the model have no [NaN]. Where a claim turns on it, the
    clamp of [clampPositive] is embedded a second time, over numbers that
    may be [NaN]. *)

Module NaNAware.

Inductive number : Type :=
| NaN
| Num (r : R).

(** [Math.max]: [NaN] as soon as an argument is [NaN]. *)
Definition Math_max (a b : number) : number :=
  match a, b with
  | Num p, Num q => Num (Rmax p q)
  | _, _ => NaN
  end.

(** [a >= 0]: a comparison with [NaN] is false. *)
Definition geq0 (a : number) : Prop :=
  match a with
  | Num r => 0 <= r
  | NaN => False
  end.

Record NVector : Type := mkNVector {
  nx : number;
  ny : number
}.

(** A vector of the real model, whose coordinates are numbers. *)
Definition ofVector (v : Vector) : NVector := mkNVector (Num (x v)) (Num (y v)).

(** The map of [clampPositive]:
    [vectors.map((vector) => ({ x: Math.max(0, vector.x), y: Math.max(0, vector.y) }))]. *)
Definition clampedVectors (vectors : list NVector) : list NVector :=
  map (fun vector => mkNVector (Math_max (Num 0) (nx vector))
                               (Math_max (Num 0) (ny vector))) vectors.

(** The coordinate invariant of a vector: [x >= 0] and [y >= 0]. *)
Definition onScreen (v : NVector) : Prop := geq0 (nx v) /\ geq0 (ny v).

(** A vector at the point [p]. *)
Definition coincides (v : NVector) (p : Vector) : Prop :=
  nx v = Num (x p) /\ ny v = Num (y p).

(** A vector whose coordinates are [NaN]. *)
Definition hole : NVector := mkNVector NaN NaN.

(** The samples of the curve of a request that stays at [p]. Neither
    math.ts nor the curve package is under src/. There the two interior
    control points are set off from the line along the unit vector of a
    vector that is zero when start and finish agree: 0/0, so both points
    are [NaN], and so are the length of the curve and the step count made
    from it. The package samples 100 steps when the count it is given is
    not a number: 101 samples, the control points themselves at the
    parameters 0 and 1, and [NaN] at the 99 parameters between them. *)
Definition stationarySamples (p : Vector) : list NVector :=
  ofVector p :: repeat hole 99 ++ [ofVector p].

(** What [generate] returns for such samples when [useTimestamps] is not
    [true]: [clampPositive] returns its map, and [buildMetrics] takes
    [steps] as [vectors.length] and [distance] as
    [magnitude(direction(start, finish))], of a start and a finish that are
    numbers. *)
Record NTrace : Type := mkNTrace {
  nvectors : list NVector;
  nsteps : nat;
  ndistance : R
}.

Definition stationaryTrace (p : Vector) : NTrace :=
  let finish := toVector (ToPoint p) in
  let vectors := clampedVectors (stationarySamples p) in
  {| nvectors := vectors;
     nsteps := List.length vectors;
     ndistance := magnitude (direction p finish) |}.

End NaNAware.

(** ** A straight-line host, for concrete runs

    A stand-in for the missing parts that a test can use: the two interior
    control points sit on the chord, at one third and two thirds of it, no
    draw being made; the curve is then the chord, run at constant speed, and
    its arc length is the length of the chord. *)

Definition lineAnchors (start finish : Vector) (spread : option R) (n : nat)
  : Vector * Vector * nat :=
  (vec (x start + (x finish - x start) / 3) (y start + (y finish - y start) / 3),
   vec (x start + 2 * (x finish - x start) / 3) (y start + 2 * (y finish - y start) / 3),
   n).

Definition chordLength (c : Bezier) : R := magnitude (direction (p0 c) (p3 c)).

(** A random source that gives the same number at every call. *)
Definition constRandom (r : R) : nat -> R := fun _ => r.

(** Requests of the concrete runs. *)
Definition easyMove (speed : option R) (stamps : bool) : MovementContext :=
  {| ctx_start := vec 0 0;
     ctx_end := ToBox (mkBox 500 0 10000 10);
     ctx_options := mkOptions None speed (Some stamps) |}.

Definition offscreenMove : MovementContext :=
  {| ctx_start := vec (-50) (-25);
     ctx_end := ToPoint (vec 10 5);
     ctx_options := mkOptions (Some 10) None (Some false) |}.

Definition boxMove (w : R) : MovementContext :=
  {| ctx_start := vec 0 0;
     ctx_end := ToBox (mkBox (375 / 4) 0 w 150);
     ctx_options := mkOptions (Some 30) (Some 75) (Some false) |}.

(** [generate] on the straight-line host, with the random source stuck at
    [r] and the clock at [now]. *)
Definition lineGenerate (r : R) (now : Z) (context : MovementContext) : MovementTrace :=
  fst (generate (constRandom r) now lineAnchors chordLength context 0).

(** An algorithm that breaks the contract: it returns no vector at all. *)
Definition emptyTrace : MovementTrace :=
  {| algorithm := "empty";
     vectors := [];
     metrics := mkMetrics 0 0 0 None |}.

Definition emptyAlgorithm : MovementAlgorithm unit :=
  {| name := "empty";
     alg_generate := fun _ w => (Returned emptyTrace, w) |}.

(** An algorithm whose trace starts and ends elsewhere than asked. *)
Definition strayTrace : MovementTrace :=
  {| algorithm := "stray";
     vectors := [vec 7 7; vec 9 9];
     metrics := mkMetrics 2 0 0 None |}.

Definition strayAlgorithm : MovementAlgorithm unit :=
  {| name := "stray";
     alg_generate := fun _ w => (Returned strayTrace, w) |}.


(** The request of a move that stays in place. *)
Definition stationaryMove : MovementContext :=
  {| ctx_start := vec 256 256;
     ctx_end := ToPoint (vec 256 256);
     ctx_options := mkOptions None (Some 75) (Some false) |}.

(** The scripted algorithm of the controller's tests: it replays one
    scripted segment per call, records the request it was given, and throws
    when no segment is left. The host it runs in holds the queue of the
    segments, the recorded requests and the events the mock transport was
    sent. *)
Record ScriptedSegment : Type := mkSegment {
  seg_vectors : list Vector;
  seg_width : option R
}.

Record ScriptedHost : Type := mkHost {
  segments : list ScriptedSegment;
  contexts : list MovementContext;
  sent : list Vector
}.

Definition scriptedWidth (e : Destination) (next : ScriptedSegment) : R :=
  let fallback := match seg_width next with Some w => w | None => 0 end in
  match e with
  | ToBox b => if Req_dec_T (box_width b) 0 then fallback else box_width b
  | ToPoint _ => fallback
  end.

Definition scriptedAlgorithm : MovementAlgorithm ScriptedHost :=
  {| name := "scripted-movement";
     alg_generate := fun context h =>
       match segments h with
       | [] => (Threw "No scripted movement segment available for test invocation", h)
       | next :: rest =>
           let h' := {| segments := rest;
                        contexts := contexts h ++ [context];
                        sent := sent h |} in
           match seg_vectors next with
           | [] => (Threw "TypeError", h')
           | firstVector :: _ =>
               let finish := nth (List.length (seg_vectors next) - 1)
                                 (seg_vectors next) firstVector in
               (Returned
                  {| algorithm := "scripted-movement";
                     vectors := seg_vectors next;
                     metrics :=
                       {| steps := List.length (seg_vectors next);
                          distance := magnitude (direction (ctx_start context)
                                                           (toVector (ctx_end context)));
                          width := scriptedWidth (ctx_end context) next;
                          duration :=
                            match timestamp firstVector, timestamp finish with
                            | Some t0, Some t1 => Some (t1 - t0)%Z
                            | _, _ => None
                            end |} |},
                h')
           end
       end |}.

(** The mock transport: every event is accepted and recorded. *)
Definition mockSend (v : Vector) (h : ScriptedHost) : bool * ScriptedHost :=
  (true, {| segments := segments h; contexts := contexts h; sent := sent h ++ [v] |}).

Definition scriptedSegments : list ScriptedSegment :=
  [ mkSegment [mkVector 48 48 (Some 10%Z); mkVector 180 72 (Some 18%Z);
               mkVector 300 110 (Some 32%Z)] (Some 280);
    mkSegment [mkVector 300 110 (Some 40%Z); mkVector 402 156 (Some 56%Z);
               mkVector 512 240 (Some 80%Z)] (Some 140);
    mkSegment [mkVector 512 240 (Some 90%Z); mkVector 640 310 (Some 102%Z);
               mkVector 704 420 (Some 118%Z); mkVector 752 512 (Some 135%Z)] (Some 96) ].

Definition scriptedCalls : list (Destination * option Controller.MoveOptions) :=
  [ (ToBox (mkBox 300 110 280 60), None);
    (ToBox (mkBox 512 240 140 48), None);
    (ToBox (mkBox 752 512 96 32), None) ].

Definition scriptedDefaults : Controller.MoveOptions :=
  Controller.mkMoveOptions None None (Some true) (Some 0) (Some false).

Definition scriptedHost : ScriptedHost := mkHost scriptedSegments [] [].

(** A move of 100 px along the x axis at a given speed. *)
Definition axisMove (s : R) : MovementContext :=
  {| ctx_start := vec 0 0;
     ctx_end := ToPoint (vec 100 0);
     ctx_options := mkOptions None (Some s) None |}.

(** A run of the scripted algorithm over a list of requests, one call per
    request: the outcomes in order and the host at the end. *)
Fixpoint replay (requests : list MovementContext) (h : ScriptedHost)
  : list Outcome * ScriptedHost :=
  match requests with
  | [] => ([], h)
  | context :: rest =>
      let '(outcome, h1) := alg_generate scriptedAlgorithm context h in
      let '(outcomes, h2) := replay rest h1 in
      (outcome :: outcomes, h2)
  end.

(** The vectors of an outcome, when it is a trace. *)
Definition outcomeVectors (o : Outcome) : option (list Vector) :=
  match o with
  | Returned trace => Some (vectors trace)
  | Threw _ => None
  end.

(** [metrics.steps] of an outcome, when it is a trace. *)
Definition outcomeSteps (o : Outcome) : option nat :=
  match o with
  | Returned trace => Some (steps (metrics trace))
  | Threw _ => None
  end.

(** * Properties *)

(** ** Rounding and logarithm *)

Section Rounding.

Lemma Math_floor_bounds (r : R) :
  IZR (Math_floor r) <= r < IZR (Math_floor r) + 1.
Proof.
  unfold Math_floor. destruct (base_Int_part r) as [Hle Hgt]. lra.
Qed.

Lemma Math_floor_unique (r : R) (z : Z) :
  IZR z <= r < IZR z + 1 -> Math_floor r = z.
Proof.
  intros [Hle Hlt]. unfold Math_floor. symmetry.
  apply Int_part_spec. lra.
Qed.

Lemma Math_floor_mono (a b : R) : a <= b -> (Math_floor a <= Math_floor b)%Z.
Proof.
  intros Hab.
  pose proof (Math_floor_bounds a) as Ha.
  pose proof (Math_floor_bounds b) as Hb.
  apply Z.lt_succ_r. apply lt_IZR. rewrite succ_IZR. lra.
Qed.

Lemma Math_ceil_bounds (r : R) :
  IZR (Math_ceil r) - 1 < r <= IZR (Math_ceil r).
Proof.
  unfold Math_ceil. rewrite opp_IZR.
  pose proof (Math_floor_bounds (- r)) as H. unfold Math_floor in H. lra.
Qed.

Lemma Math_ceil_unique (r : R) (z : Z) :
  IZR z - 1 < r <= IZR z -> Math_ceil r = z.
Proof.
  intros [Hlt Hle]. unfold Math_ceil.
  assert (Int_part (- r) = (- z)%Z) as ->.
  { apply (Math_floor_unique (- r) (- z)). rewrite opp_IZR. lra. }
  lia.
Qed.

Lemma Math_ceil_mono (a b : R) : a <= b -> (Math_ceil a <= Math_ceil b)%Z.
Proof.
  intros Hab. unfold Math_ceil.
  assert (Math_floor (- b) <= Math_floor (- a))%Z as H
      by (apply Math_floor_mono; lra).
  unfold Math_floor in H. lia.
Qed.


Lemma Math_ceil_pos (r : R) : 0 < r -> (1 <= Math_ceil r)%Z.
Proof.
  intros Hr. pose proof (Math_ceil_bounds r) as [Hlo Hhi].
  assert (0 < Math_ceil r)%Z by (apply lt_IZR; lra). lia.
Qed.

Lemma Math_ceil_IZR (z : Z) : Math_ceil (IZR z) = z.
Proof. apply Math_ceil_unique. lra. Qed.



Lemma Math_round_IZR (z : Z) : Math_round (IZR z) = z.
Proof.
  unfold Math_round. apply (Math_floor_unique (IZR z + / 2) z). lra.
Qed.

Lemma ln_2_pos : 0 < ln 2.
Proof. pose proof ln_lt_2. lra. Qed.

Lemma Math_log2_1 : Math_log2 1 = 0.
Proof. unfold Math_log2. rewrite ln_1. unfold Rdiv. ring. Qed.

Lemma Math_log2_lt (a b : R) : 0 < a -> a < b -> Math_log2 a < Math_log2 b.
Proof.
  intros Ha Hab. unfold Math_log2, Rdiv.
  apply Rmult_lt_compat_r.
  - apply Rinv_0_lt_compat, ln_2_pos.
  - now apply ln_increasing.
Qed.

Lemma Math_log2_le (a b : R) : 0 < a -> a <= b -> Math_log2 a <= Math_log2 b.
Proof.
  intros Ha [Hlt | ->].
  - left. now apply Math_log2_lt.
  - right. reflexivity.
Qed.

Lemma Math_log2_nonneg (a : R) : 1 <= a -> 0 <= Math_log2 a.
Proof.
  intros Ha. rewrite <- Math_log2_1. apply Math_log2_le; lra.
Qed.

Lemma Math_log2_pos (a : R) : 1 < a -> 0 < Math_log2 a.
Proof.
  intros Ha. rewrite <- Math_log2_1. apply Math_log2_lt; lra.
Qed.

(** [2^p <= a^q] gives [p/q <= log2 a], and the same for upper bounds:
    how a logarithm is bounded by rationals. *)
Lemma Math_log2_lower (a : R) (p q : nat) :
  0 < a -> (0 < q)%nat -> 2 ^ p <= a ^ q -> INR p / INR q <= Math_log2 a.
Proof.
  intros Ha Hq Hpow.
  assert (0 < INR q) as Hq' by (apply lt_0_INR; exact Hq).
  assert (ln (2 ^ p) <= ln (a ^ q)) as Hln.
  { destruct Hpow as [Hlt | Heq].
    - left. apply ln_increasing; [apply pow_lt; lra | exact Hlt].
    - right. now rewrite Heq. }
  rewrite !ln_pow in Hln by lra.
  unfold Math_log2. pose proof ln_2_pos as H2.
  apply Rmult_le_reg_r with (INR q * ln 2); [nra |].
  replace (INR p / INR q * (INR q * ln 2)) with (INR p * ln 2) by (field; lra).
  replace (ln a / ln 2 * (INR q * ln 2)) with (INR q * ln a) by (field; lra).
  exact Hln.
Qed.

Lemma Math_log2_upper (a : R) (p q : nat) :
  0 < a -> (0 < q)%nat -> a ^ q <= 2 ^ p -> Math_log2 a <= INR p / INR q.
Proof.
  intros Ha Hq Hpow.
  assert (0 < INR q) as Hq' by (apply lt_0_INR; exact Hq).
  assert (ln (a ^ q) <= ln (2 ^ p)) as Hln.
  { destruct Hpow as [Hlt | Heq].
    - left. apply ln_increasing; [apply pow_lt; lra | exact Hlt].
    - right. now rewrite Heq. }
  rewrite !ln_pow in Hln by lra.
  unfold Math_log2. pose proof ln_2_pos as H2.
  apply Rmult_le_reg_r with (INR q * ln 2); [nra |].
  replace (INR p / INR q * (INR q * ln 2)) with (INR p * ln 2) by (field; lra).
  replace (ln a / ln 2 * (INR q * ln 2)) with (INR q * ln a) by (field; lra).
  exact Hln.
Qed.

End Rounding.

(** ** Sampling of the curve *)

Section Sampling.

Lemma compute_0 (c : Bezier) : compute c 0 = vec (x (p0 c)) (y (p0 c)).
Proof. unfold compute, vec. f_equal; ring. Qed.

Lemma compute_1 (c : Bezier) : compute c 1 = vec (x (p3 c)) (y (p3 c)).
Proof. unfold compute, vec. f_equal; ring. Qed.

Lemma sample_length (c : Bezier) (n : nat) : List.length (sample c n) = S n.
Proof. unfold sample. now rewrite length_map, length_seq. Qed.

Lemma sample_nth (c : Bezier) (n i : nat) (d : Vector) :
  (i <= n)%nat -> nth i (sample c n) d = compute c (INR i / INR n).
Proof.
  intros Hi. unfold sample.
  rewrite (nth_indep _ d (compute c (INR 0 / INR n)))
    by (rewrite length_map, length_seq; lia).
  rewrite (map_nth (fun i => compute c (INR i / INR n))).
  rewrite seq_nth by lia. reflexivity.
Qed.

Lemma sample_first (c : Bezier) (n : nat) (d : Vector) :
  nth 0 (sample c n) d = vec (x (p0 c)) (y (p0 c)).
Proof.
  rewrite sample_nth by lia. simpl INR at 1.
  replace (0 / INR n) with 0 by (unfold Rdiv; ring).
  apply compute_0.
Qed.

Lemma sample_last (c : Bezier) (n : nat) (d : Vector) :
  (1 <= n)%nat -> nth n (sample c n) d = vec (x (p3 c)) (y (p3 c)).
Proof.
  intros Hn. rewrite sample_nth by lia.
  assert (0 < INR n) as Hpos by (apply lt_0_INR; lia).
  replace (INR n / INR n) with 1 by (field; lra).
  apply compute_1.
Qed.

(** A curve whose four control points have the same coordinates is
    constant. *)
Lemma compute_constant (c : Bezier) (t a b : R) :
  x (p0 c) = a -> x (p1 c) = a -> x (p2 c) = a -> x (p3 c) = a ->
  y (p0 c) = b -> y (p1 c) = b -> y (p2 c) = b -> y (p3 c) = b ->
  compute c t = vec a b.
Proof.
  intros Hx0 Hx1 Hx2 Hx3 Hy0 Hy1 Hy2 Hy3. unfold compute, vec.
  rewrite Hx0, Hx1, Hx2, Hx3, Hy0, Hy1, Hy2, Hy3. f_equal; ring.
Qed.

End Sampling.

(** ** The timestamp loop *)

Section Timestamps.

Variable Date_now : Z.



(** The loop of [timeToMove] leaves by its condition: once [t] has reached
    1, more fuel changes nothing. *)
Lemma integrate_done (fuel : nat) (P0 P1 P2 P3 : Vector) (dt t total : R) :
  1 <= t -> integrate fuel P0 P1 P2 P3 dt t total = total.
Proof.
  intros Ht. destruct fuel as [| fuel]; simpl; [reflexivity |].
  destruct (Rlt_dec t 1); [lra | reflexivity].
Qed.

Lemma integrate_fuel_gen (fuel extra : nat) (P0 P1 P2 P3 : Vector) (dt t total : R) :
  1 <= t + INR fuel * dt ->
  integrate (fuel + extra) P0 P1 P2 P3 dt t total
  = integrate fuel P0 P1 P2 P3 dt t total.
Proof.
  revert t total. induction fuel as [| fuel IH]; intros t total Ht.
  - simpl in Ht. simpl. apply integrate_done. lra.
  - cbn [Nat.add integrate].
    destruct (Rlt_dec t 1) as [Hlt | Hge]; [| reflexivity].
    apply IH. rewrite S_INR in Ht. lra.
Qed.

(** With [dt = 1 / samples], [samples] rounds are all the loop makes. *)
Lemma integrate_fuel (samples extra : nat) (P0 P1 P2 P3 : Vector) :
  (1 <= samples)%nat ->
  integrate (samples + extra) P0 P1 P2 P3 (1 / INR samples) 0 0
  = integrate samples P0 P1 P2 P3 (1 / INR samples) 0 0.
Proof.
  intros Hs. apply integrate_fuel_gen.
  assert (0 < INR samples) by (apply lt_0_INR; lia).
  right. field. lra.
Qed.




Lemma stampLoop_app (vs : list Vector) (speed : R) (todo i : nat)
      (acc : list TimedVector) :
  exists l, stampLoop Date_now vs speed todo i acc = acc ++ l
            /\ List.length l = todo.
Proof.
  revert i acc. induction todo as [| todo IH]; intros i acc; simpl.
  - exists []. now rewrite app_nil_r.
  - destruct (IH (S i) (acc ++ [stampAt Date_now vs speed i acc])) as [l [Hl Hlen]].
    exists (stampAt Date_now vs speed i acc :: l). split.
    + rewrite Hl, <- app_assoc. reflexivity.
    + simpl. now rewrite Hlen.
Qed.

Lemma stampLoop_length (vs : list Vector) (speed : R) (todo i : nat)
      (acc : list TimedVector) :
  List.length (stampLoop Date_now vs speed todo i acc)
  = (List.length acc + todo)%nat.
Proof.
  destruct (stampLoop_app vs speed todo i acc) as [l [-> Hlen]].
  rewrite length_app. lia.
Qed.

Lemma stampLoop_keeps (vs : list Vector) (speed : R) (todo i j : nat)
      (acc : list TimedVector) (d : TimedVector) :
  (j < List.length acc)%nat ->
  nth j (stampLoop Date_now vs speed todo i acc) d = nth j acc d.
Proof.
  intros Hj. destruct (stampLoop_app vs speed todo i acc) as [l [-> _]].
  now apply app_nth1.
Qed.

(** [stampAt] reads the list built so far at index [i - 1] only. *)
Lemma stampAt_ext (vs : list Vector) (speed : R) (i : nat)
      (a b : list TimedVector) :
  (i = 0%nat \/ nth (i - 1) a timedOrigin = nth (i - 1) b timedOrigin) ->
  stampAt Date_now vs speed i a = stampAt Date_now vs speed i b.
Proof.
  intros H. unfold stampAt.
  destruct (Nat.eqb_spec i 0) as [Hi | Hi]; [reflexivity |].
  destruct H as [H | H]; [contradiction |]. now rewrite H.
Qed.

(** The loop invariant: every entry the loop pushes is [stampAt] of its
    index, read against the final list. *)
Lemma stampLoop_nth (vs : list Vector) (speed : R) (todo : nat) :
  forall (i : nat) (acc : list TimedVector) (j : nat),
    List.length acc = i -> (i <= j < i + todo)%nat ->
    nth j (stampLoop Date_now vs speed todo i acc) timedOrigin
    = stampAt Date_now vs speed j (stampLoop Date_now vs speed todo i acc).
Proof.
  induction todo as [| todo IH]; intros i acc j Hlen Hj; [lia |].
  cbn [stampLoop].
  set (e := stampAt Date_now vs speed i acc).
  destruct (Nat.eq_dec j i) as [-> | Hne].
  - rewrite stampLoop_keeps by (rewrite length_app; simpl; lia).
    rewrite app_nth2 by lia. rewrite Hlen, Nat.sub_diag. simpl.
    unfold e. apply stampAt_ext.
    destruct (Nat.eq_dec i 0) as [Hi | Hi]; [now left | right].
    rewrite stampLoop_keeps by (rewrite length_app; simpl; lia).
    rewrite app_nth1 by lia. reflexivity.
  - apply IH; [rewrite length_app; simpl; lia | lia].
Qed.

End Timestamps.

(** ** Clamping and stamping of a sampled path *)

Section Clamp.

Variable Math_random : nat -> R.
Variable Date_now : Z.

Lemma nth_map_in {A B : Type} (f : A -> B) (l : list A) (i : nat) (d : B) (d' : A) :
  (i < List.length l)%nat -> nth i (map f l) d = f (nth i l d').
Proof.
  intros Hi. rewrite (nth_indep _ d (f d')) by (now rewrite length_map).
  apply map_nth.
Qed.

Lemma clamped_nonneg (v : Vector) : 0 <= x (clamped v) /\ 0 <= y (clamped v).
Proof. unfold clamped, Math_max; simpl. split; apply Rmax_l. Qed.

Lemma clamped_id (v : Vector) :
  0 <= x v -> 0 <= y v -> sameCoords (clamped v) v.
Proof.
  intros Hx Hy. unfold sameCoords, clamped, Math_max; simpl.
  split; apply Rmax_right; assumption.
Qed.

(** The list [stampLoop] builds for the whole of [vectors]. *)
Lemma stamped_length (vs : list Vector) (speed : R) :
  List.length (stampLoop Date_now vs speed (List.length vs) 0 []) = List.length vs.
Proof. now rewrite stampLoop_length. Qed.

Lemma stamped_nth (vs : list Vector) (speed : R) (i : nat) :
  (i < List.length vs)%nat ->
  let timed := stampLoop Date_now vs speed (List.length vs) 0 [] in
  nth i timed timedOrigin = stampAt Date_now vs speed i timed.
Proof.
  intros Hi timed. unfold timed. apply stampLoop_nth; simpl; [reflexivity | lia].
Qed.

Lemma stampAt_coords (vs : list Vector) (speed : R) (i : nat) (acc : list TimedVector) :
  tx (stampAt Date_now vs speed i acc) = x (nth i vs origin)
  /\ ty (stampAt Date_now vs speed i acc) = y (nth i vs origin).
Proof. unfold stampAt. destruct (i =? 0)%nat; simpl; auto. Qed.

Lemma stampAt_first (vs : list Vector) (speed : R) (acc : list TimedVector) :
  ttimestamp (stampAt Date_now vs speed 0 acc) = Date_now.
Proof. reflexivity. Qed.

Lemma stampAt_next (vs : list Vector) (speed : R) (i : nat) (acc : list TimedVector) :
  (1 <= i)%nat ->
  ttimestamp (stampAt Date_now vs speed i acc)
  = (ttimestamp (nth (i - 1) acc timedOrigin) + elapsedAt speed vs i)%Z.
Proof.
  intros Hi. unfold stampAt, elapsedAt, windowAt.
  destruct (Nat.eqb_spec i 0) as [H0 | H0]; [lia |]. reflexivity.
Qed.

Lemma clampPositive_length (vs : list Vector) (o : MovementOptions) (n : nat) :
  List.length (fst (clampPositive Math_random Date_now vs o n)) = List.length vs.
Proof.
  unfold clampPositive, generateTimestamps.
  destruct (useTimestamps o) as [[|] |]; simpl; try now rewrite length_map.
  destruct (timestampSpeed Math_random o n) as [speed n']; simpl.
  now rewrite length_map, stamped_length, length_map.
Qed.

Lemma clampPositive_coords (vs : list Vector) (o : MovementOptions) (n i : nat) :
  (i < List.length vs)%nat ->
  sameCoords (nth i (fst (clampPositive Math_random Date_now vs o n)) origin)
             (clamped (nth i vs origin)).
Proof.
  intros Hi. unfold clampPositive, generateTimestamps.
  assert (nth i (map (fun vector => vec (Math_max 0 (x vector)) (Math_max 0 (y vector))) vs)
              origin = clamped (nth i vs origin)) as Hcl.
  { now rewrite (nth_map_in _ vs i origin origin). }
  destruct (useTimestamps o) as [[|] |]; simpl;
    try (rewrite Hcl; split; reflexivity).
  destruct (timestampSpeed Math_random o n) as [speed n']; simpl.
  rewrite (nth_map_in asVector _ i origin timedOrigin)
    by (rewrite stamped_length, length_map; exact Hi).
  rewrite stamped_nth by (rewrite length_map; exact Hi).
  unfold sameCoords, asVector; simpl.
  rewrite (proj1 (stampAt_coords _ _ _ _)), (proj2 (stampAt_coords _ _ _ _)).
  rewrite Hcl. split; reflexivity.
Qed.

Lemma clampPositive_untimed (vs : list Vector) (o : MovementOptions) (n : nat) :
  useTimestamps o <> Some true ->
  fst (clampPositive Math_random Date_now vs o n) = map clamped vs.
Proof.
  intros Hno. unfold clampPositive.
  destruct (useTimestamps o) as [[|] |]; simpl; try reflexivity.
  now contradiction Hno.
Qed.

(** With timestamps requested, the trace is the stamped list; its first
    timestamp is the clock and each later one adds the elapsed time of its
    window, computed with the divisor of [timestampSpeed]. *)
Lemma clampPositive_timed (vs : list Vector) (o : MovementOptions) (n : nat) :
  useTimestamps o = Some true ->
  let r := fst (clampPositive Math_random Date_now vs o n) in
  let speed := fst (timestampSpeed Math_random o n) in
  (forall i, (i < List.length vs)%nat -> timestamp (nth i r origin) <> None)
  /\ (vs <> [] -> stampOf (nth 0 r origin) = Date_now)
  /\ (forall i, (1 <= i < List.length vs)%nat ->
        stampOf (nth i r origin)
        = (stampOf (nth (i - 1) r origin) + elapsedAt speed (map clamped vs) i)%Z).
Proof.
  intros Hts r speed. unfold r, speed, clampPositive, generateTimestamps.
  rewrite Hts.
  destruct (timestampSpeed Math_random o n) as [sp n']; simpl.
  fold clamped.
  set (cv := map (fun vector => vec (Math_max 0 (x vector)) (Math_max 0 (y vector))) vs).
  assert (cv = map clamped vs) as Hcv by reflexivity.
  assert (List.length cv = List.length vs) as Hlen by (unfold cv; now rewrite length_map).
  set (timed := stampLoop Date_now cv sp (List.length cv) 0 []).
  assert (forall i, (i < List.length vs)%nat ->
            nth i (map asVector timed) origin
            = asVector (stampAt Date_now cv sp i timed)) as Hnth.
  { intros i Hi.
    rewrite (nth_map_in asVector _ i origin timedOrigin)
      by (unfold timed; rewrite stamped_length; lia).
    unfold timed. rewrite stamped_nth by lia. reflexivity. }
  split; [| split].
  - intros i Hi. rewrite Hnth by exact Hi. discriminate.
  - intros Hne. rewrite Hnth by (destruct vs; [contradiction | simpl; lia]).
    reflexivity.
  - intros i Hi. rewrite !Hnth by lia. unfold stampOf, asVector; simpl.
    rewrite stampAt_next by lia.
    assert (nth (i - 1) timed timedOrigin = stampAt Date_now cv sp (i - 1) timed) as ->.
    { unfold timed. apply stamped_nth. lia. }
    rewrite <- Hcv. reflexivity.
Qed.

End Clamp.

(** ** The step count *)

Section StepCount.

Lemma fitts_eq (len w : R) : fitts len w = 2 * Math_log2 (len / w + 1).
Proof. unfold fitts. ring. Qed.

Lemma ratio_nonneg (len w : R) : 0 < w -> 0 <= len -> 0 <= len / w.
Proof.
  intros Hw Hl. apply Rmult_le_pos; [exact Hl |].
  left. now apply Rinv_0_lt_compat.
Qed.

Lemma fitts_nonneg (len w : R) : 0 < w -> 0 <= len -> 0 <= fitts len w.
Proof.
  intros Hw Hl. rewrite fitts_eq.
  pose proof (ratio_nonneg len w Hw Hl).
  pose proof (Math_log2_nonneg (len / w + 1)). lra.
Qed.

Lemma fitts_pos (len w : R) : 0 < w -> 0 < len -> 0 < fitts len w.
Proof.
  intros Hw Hl. rewrite fitts_eq.
  assert (0 < len / w) by (apply Rdiv_lt_0_compat; assumption).
  pose proof (Math_log2_pos (len / w + 1)). lra.
Qed.

Lemma fitts_mono_length (len1 len2 w : R) :
  0 < w -> 0 <= len1 -> len1 <= len2 -> fitts len1 w <= fitts len2 w.
Proof.
  intros Hw H1 H12. rewrite !fitts_eq.
  pose proof (ratio_nonneg len1 w Hw H1).
  assert (len1 / w <= len2 / w).
  { unfold Rdiv. apply Rmult_le_compat_r; [| exact H12].
    left. now apply Rinv_0_lt_compat. }
  pose proof (Math_log2_le (len1 / w + 1) (len2 / w + 1)). lra.
Qed.

Lemma fitts_anti_width (len w1 w2 : R) :
  0 < w1 -> w1 <= w2 -> 0 <= len -> fitts len w2 <= fitts len w1.
Proof.
  intros Hw1 H12 Hl. rewrite !fitts_eq.
  assert (0 < w2) as Hw2 by lra.
  pose proof (ratio_nonneg len w2 Hw2 Hl).
  assert (len / w2 <= len / w1).
  { unfold Rdiv. apply Rmult_le_compat_l; [exact Hl |].
    apply Rinv_le_contravar; assumption. }
  pose proof (Math_log2_le (len / w2 + 1) (len / w1 + 1)). lra.
Qed.

(** The number under [Math.ceil] in the step count. *)
Lemma stepCount_eq (len w speed : R) :
  stepCount len w speed
  = Math_ceil ((Math_log2 (fitts len w + 1) + speed * 25) * 3).
Proof. reflexivity. Qed.


Lemma stepCount_pos_length (len w speed : R) :
  0 < w -> 0 < len -> 0 <= speed -> (1 <= stepCount len w speed)%Z.
Proof.
  intros Hw Hl Hs. rewrite stepCount_eq. apply Math_ceil_pos.
  pose proof (fitts_pos len w Hw Hl).
  pose proof (Math_log2_pos (fitts len w + 1)). lra.
Qed.

Lemma stepCount_pos_speed (len w speed : R) :
  0 < w -> 0 <= len -> 0 < speed -> (1 <= stepCount len w speed)%Z.
Proof.
  intros Hw Hl Hs. rewrite stepCount_eq. apply Math_ceil_pos.
  pose proof (fitts_nonneg len w Hw Hl).
  pose proof (Math_log2_nonneg (fitts len w + 1)). lra.
Qed.

Lemma stepCount_mono_length (len1 len2 w speed : R) :
  0 < w -> 0 <= len1 -> len1 <= len2 ->
  (stepCount len1 w speed <= stepCount len2 w speed)%Z.
Proof.
  intros Hw H1 H12. rewrite !stepCount_eq. apply Math_ceil_mono.
  pose proof (fitts_nonneg len1 w Hw H1).
  pose proof (fitts_mono_length len1 len2 w Hw H1 H12).
  pose proof (Math_log2_le (fitts len1 w + 1) (fitts len2 w + 1)). lra.
Qed.

Lemma stepCount_anti_width (len w1 w2 speed : R) :
  0 < w1 -> w1 <= w2 -> 0 <= len ->
  (stepCount len w2 speed <= stepCount len w1 speed)%Z.
Proof.
  intros Hw1 H12 Hl. rewrite !stepCount_eq. apply Math_ceil_mono.
  assert (0 < w2) as Hw2 by lra.
  pose proof (fitts_nonneg len w2 Hw2 Hl).
  pose proof (fitts_anti_width len w1 w2 Hw1 H12 Hl).
  pose proof (Math_log2_le (fitts len w2 + 1) (fitts len w1 + 1)). lra.
Qed.

Lemma stepCount_mono_speed (len w s1 s2 : R) :
  s1 <= s2 -> (stepCount len w s1 <= stepCount len w s2)%Z.
Proof.
  intros Hs. rewrite !stepCount_eq. apply Math_ceil_mono. lra.
Qed.

(** A step count pinned by rational bounds on the inner logarithm. *)
Lemma stepCount_between (len w speed lo hi : R) (z : Z) :
  lo <= Math_log2 (fitts len w + 1) <= hi ->
  IZR z - 1 < (lo + speed * 25) * 3 ->
  (hi + speed * 25) * 3 <= IZR z ->
  stepCount len w speed = z.
Proof.
  intros [Hlo Hhi] Hz1 Hz2. rewrite stepCount_eq.
  apply Math_ceil_unique. lra.
Qed.

Lemma targetWidth_pos (e : Destination) : wellFormed e -> 0 < targetWidth e.
Proof.
  destruct e as [p | b]; simpl; intros Hwf; unfold DEFAULT_WIDTH.
  - lra.
  - destruct (Req_dec_T (box_width b) 0); lra.
Qed.

Lemma speedFactor_nonneg (Math_random : nat -> R) (o : MovementOptions) (n : nat) :
  (forall k, 0 <= Math_random k < 1) -> 0 <= fst (speedFactor Math_random o n).
Proof.
  intros Hr. unfold speedFactor, random.
  destruct (moveSpeed o) as [s |]; [| apply Hr].
  destruct (Rlt_dec 0 s) as [Hs | Hs]; simpl; [| apply Hr].
  left. apply Rdiv_lt_0_compat; lra.
Qed.

End StepCount.

(** ** The trace of [generate] *)

Section Generate.

Variable Math_random : nat -> R.
Variable Date_now : Z.
Variable randomAnchors : Vector -> Vector -> option R -> nat -> Vector * Vector * nat.
Variable curveLength : Bezier -> R.

Local Abbreviation gen := (generate Math_random Date_now randomAnchors curveLength).
Local Abbreviation curveOf context n := (fst (generateCurve randomAnchors context n)).
Local Abbreviation stepsOf := (generateSteps Math_random randomAnchors curveLength).
Local Abbreviation speedOf := (generateSpeed Math_random randomAnchors).

Lemma generate_vectors (context : MovementContext) (n : nat) :
  vectors (fst (gen context n))
  = fst (clampPositive Math_random Date_now
                       (getLUT (curveOf context n) (stepsOf context n))
                       (ctx_options context) (snd (speedOf context n))).
Proof.
  unfold generate, generateSteps, generateSpeed, generateCurve.
  destruct (bezierCurve randomAnchors _ _ _ n) as [curve n1]; simpl.
  destruct (speedFactor Math_random _ n1) as [speed n2]; simpl.
  destruct (clampPositive Math_random Date_now _ _ n2) as [vs n3]; reflexivity.
Qed.

Lemma generate_metrics (context : MovementContext) (n : nat) :
  metrics (fst (gen context n))
  = buildMetrics (ctx_start context) (toVector (ctx_end context))
                 (targetWidth (ctx_end context)) (vectors (fst (gen context n))).
Proof.
  unfold generate.
  destruct (bezierCurve randomAnchors _ _ _ n) as [curve n1].
  destruct (speedFactor Math_random _ n1) as [speed n2].
  destruct (clampPositive Math_random Date_now _ _ n2) as [vs n3]; reflexivity.
Qed.

Lemma curve_endpoints (context : MovementContext) (n : nat) :
  p0 (curveOf context n) = ctx_start context
  /\ p3 (curveOf context n) = toVector (ctx_end context).
Proof.
  unfold generateCurve, bezierCurve.
  destruct (randomAnchors _ _ _ n) as [[a1 a2] n']; simpl. split; reflexivity.
Qed.

Lemma generate_length (context : MovementContext) (n : nat) :
  List.length (vectors (fst (gen context n))) = S (Z.to_nat (stepsOf context n)).
Proof.
  rewrite generate_vectors, clampPositive_length. unfold getLUT.
  apply sample_length.
Qed.

Lemma generate_nonempty (context : MovementContext) (n : nat) :
  vectors (fst (gen context n)) <> [].
Proof.
  intros H. pose proof (generate_length context n) as Hl.
  rewrite H in Hl. discriminate.
Qed.

Lemma generate_nth (context : MovementContext) (n i : nat) :
  (i <= Z.to_nat (stepsOf context n))%nat ->
  sameCoords (nth i (vectors (fst (gen context n))) origin)
             (clamped (compute (curveOf context n)
                               (INR i / INR (Z.to_nat (stepsOf context n))))).
Proof.
  intros Hi. rewrite generate_vectors.
  pose proof (clampPositive_coords Math_random Date_now
                (getLUT (curveOf context n) (stepsOf context n))
                (ctx_options context) (snd (speedOf context n)) i) as H.
  unfold getLUT in *. rewrite sample_length in H.
  rewrite (sample_nth _ _ i origin Hi) in H. apply H. lia.
Qed.

Lemma sameCoords_clamped (a b : Vector) :
  sameCoords a b -> sameCoords (clamped a) (clamped b).
Proof. intros [Hx Hy]. unfold sameCoords, clamped; simpl. now rewrite Hx, Hy. Qed.

Lemma sameCoords_trans (a b c : Vector) :
  sameCoords a b -> sameCoords b c -> sameCoords a c.
Proof. intros [H1 H2] [H3 H4]. split; congruence. Qed.

Lemma generate_first (context : MovementContext) (n : nat) :
  sameCoords (firstVector (vectors (fst (gen context n))))
             (clamped (ctx_start context)).
Proof.
  unfold firstVector.
  eapply sameCoords_trans; [apply generate_nth; lia |].
  simpl INR at 1. replace (0 / _) with 0 by (unfold Rdiv; ring).
  rewrite compute_0, (proj1 (curve_endpoints context n)).
  split; reflexivity.
Qed.

(** The last vector is the clamped destination as soon as one step is
    sampled; with no step the single vector is the clamped start. *)
Lemma generate_last (context : MovementContext) (n : nat) :
  sameCoords (lastVector (vectors (fst (gen context n))))
             (clamped (if (1 <=? stepsOf context n)%Z
                       then toVector (ctx_end context)
                       else ctx_start context)).
Proof.
  unfold lastVector. rewrite generate_length.
  replace (S (Z.to_nat (stepsOf context n)) - 1)%nat
    with (Z.to_nat (stepsOf context n)) by lia.
  eapply sameCoords_trans; [apply generate_nth; lia |].
  destruct (Z.leb_spec 1 (stepsOf context n)) as [Hs | Hs].
  - assert (0 < INR (Z.to_nat (stepsOf context n))) by (apply lt_0_INR; lia).
    replace (INR _ / INR _) with 1 by (field; lra).
    rewrite compute_1, (proj2 (curve_endpoints context n)).
    split; reflexivity.
  - replace (Z.to_nat (stepsOf context n)) with 0%nat by lia.
    simpl INR. replace (0 / 0) with 0 by (unfold Rdiv; ring).
    rewrite compute_0, (proj1 (curve_endpoints context n)).
    split; reflexivity.
Qed.

End Generate.

(** ** Coordinates and end points of the trace *)

Section TraceShape.

Variable Math_random : nat -> R.
Variable Date_now : Z.
Variable randomAnchors : Vector -> Vector -> option R -> nat -> Vector * Vector * nat.
Variable curveLength : Bezier -> R.

Local Abbreviation gen := (generate Math_random Date_now randomAnchors curveLength).
Local Abbreviation curveOf context n := (fst (generateCurve randomAnchors context n)).
Local Abbreviation stepsOf := (generateSteps Math_random randomAnchors curveLength).
Local Abbreviation speedOf := (generateSpeed Math_random randomAnchors).

(** Where every sampled point is a number, every vector of the trace has
    non-negative coordinates, negative starting coordinates included. (The
    reals of this model are all numbers; for [NaN] see [NaNAware].) *)
Lemma generate_coordinates_nonneg (context : MovementContext) (n : nat) :
  Forall (fun v => 0 <= x v /\ 0 <= y v) (vectors (fst (gen context n))).
Proof.
  apply Forall_forall. intros v Hin.
  destruct (In_nth _ _ origin Hin) as [i [Hi Hv]].
  rewrite generate_length in Hi.
  destruct (generate_nth Math_random Date_now randomAnchors curveLength context n i)
    as [Hx Hy]; [lia |].
  rewrite Hv in Hx, Hy. rewrite Hx, Hy.
  apply clamped_nonneg.
Qed.

Lemma magnitude_direction_coords (a b a' b' : Vector) :
  sameCoords a a' -> sameCoords b b' ->
  magnitude (direction a b) = magnitude (direction a' b').
Proof.
  intros [Hax Hay] [Hbx Hby]. unfold magnitude, direction; simpl.
  now rewrite Hax, Hay, Hbx, Hby.
Qed.

Lemma generate_distance (context : MovementContext) (n : nat) :
  distance (metrics (fst (gen context n)))
  = magnitude (direction (ctx_start context) (toVector (ctx_end context))).
Proof. rewrite generate_metrics. reflexivity. Qed.

Lemma generate_steps_metric (context : MovementContext) (n : nat) :
  steps (metrics (fst (gen context n))) = List.length (vectors (fst (gen context n))).
Proof. rewrite generate_metrics. reflexivity. Qed.

Lemma offscreen_clamped_start : sameCoords (clamped (ctx_start offscreenMove)) (vec 0 0).
Proof.
  unfold sameCoords, clamped, Math_max; simpl.
  split; apply Rmax_left; lra.
Qed.

Lemma offscreen_clamped_end :
  sameCoords (clamped (toVector (ctx_end offscreenMove))) (vec 10 5).
Proof.
  unfold sameCoords, clamped, Math_max; simpl.
  split; apply Rmax_right; lra.
Qed.

(** C10: [metrics.distance] is computed from the start as the request gives
    it, before any clamp, and the resolved destination; for the request that
    starts at (-50,-25) and ends at (10,5) it differs from the distance
    between the first and the last vector of the trace. *)
Theorem metrics_distance_before_clamp :
  (forall (context : MovementContext) (n : nat),
      distance (metrics (fst (gen context n)))
      = magnitude (direction (ctx_start context) (toVector (ctx_end context))))
  /\ (forall n : nat,
         let trace := fst (gen offscreenMove n) in
         distance (metrics trace)
         <> magnitude (direction (firstVector (vectors trace))
                                 (lastVector (vectors trace)))).
Proof.
  split; [exact generate_distance |].
  intros n trace. unfold trace. rewrite generate_distance.
  pose proof (generate_first Math_random Date_now randomAnchors curveLength
                             offscreenMove n) as Hf.
  pose proof (generate_last Math_random Date_now randomAnchors curveLength
                            offscreenMove n) as Hl.
  pose proof (sameCoords_trans _ _ _ Hf offscreen_clamped_start) as Hf'.
  assert (magnitude (direction (ctx_start offscreenMove)
                               (toVector (ctx_end offscreenMove))) = sqrt 4500) as ->.
  { unfold magnitude, direction; simpl. f_equal. lra. }
  destruct (1 <=? generateSteps Math_random randomAnchors curveLength offscreenMove n)%Z.
  - pose proof (sameCoords_trans _ _ _ Hl offscreen_clamped_end) as Hl'.
    rewrite (magnitude_direction_coords _ _ _ _ Hf' Hl').
    assert (magnitude (direction (vec 0 0) (vec 10 5)) = sqrt 125) as ->.
    { unfold magnitude, direction; simpl. f_equal. lra. }
    intros Heq. apply sqrt_inj in Heq; lra.
  - pose proof (sameCoords_trans _ _ _ Hl offscreen_clamped_start) as Hl'.
    rewrite (magnitude_direction_coords _ _ _ _ Hf' Hl').
    assert (magnitude (direction (vec 0 0) (vec 0 0)) = sqrt 0) as ->.
    { unfold magnitude, direction; simpl. f_equal. lra. }
    intros Heq. apply sqrt_inj in Heq; lra.
Qed.

End TraceShape.

(** ** End points, step count and the degenerate request *)

Section Contract.

Variable Math_random : nat -> R.
Variable Date_now : Z.
Variable randomAnchors : Vector -> Vector -> option R -> nat -> Vector * Vector * nat.
Variable curveLength : Bezier -> R.

(** [Math.random] gives numbers of [0, 1). *)
Hypothesis Math_random_range : forall k, 0 <= Math_random k < 1.

(** The arc length of the curve package is never negative, and positive
    for a curve whose end points differ. *)
Hypothesis curveLength_nonneg : forall c, 0 <= curveLength c.
Hypothesis curveLength_pos : forall c, ~ sameCoords (p0 c) (p3 c) -> 0 < curveLength c.

Local Abbreviation gen := (generate Math_random Date_now randomAnchors curveLength).
Local Abbreviation curveOf context n := (fst (generateCurve randomAnchors context n)).
Local Abbreviation stepsOf := (generateSteps Math_random randomAnchors curveLength).
Local Abbreviation speedOf := (generateSpeed Math_random randomAnchors).

Lemma sameCoords_dec (a b : Vector) : {sameCoords a b} + {~ sameCoords a b}.
Proof.
  unfold sameCoords.
  destruct (Req_dec_T (x a) (x b)); destruct (Req_dec_T (y a) (y b)); tauto.
Qed.

Lemma generateSpeed_nonneg (context : MovementContext) (n : nat) :
  0 <= fst (speedOf context n).
Proof. unfold generateSpeed. now apply speedFactor_nonneg. Qed.


Lemma generateSteps_pos (context : MovementContext) (n : nat) :
  wellFormed (ctx_end context) ->
  0 < fst (speedOf context n)
  \/ ~ sameCoords (ctx_start context) (toVector (ctx_end context)) ->
  (1 <= stepsOf context n)%Z.
Proof.
  intros Hwf [Hs | Hd]; unfold generateSteps.
  - apply stepCount_pos_speed; [now apply targetWidth_pos | | exact Hs].
    pose proof (curveLength_nonneg (curveOf context n)). lra.
  - apply stepCount_pos_length;
      [now apply targetWidth_pos | | apply generateSpeed_nonneg].
    assert (0 < curveLength (curveOf context n)); [| lra].
    apply curveLength_pos.
    destruct (curve_endpoints randomAnchors context n) as [-> ->]. exact Hd.
Qed.

Lemma generate_last_destination (context : MovementContext) (n : nat) :
  wellFormed (ctx_end context) ->
  sameCoords (lastVector (vectors (fst (gen context n))))
             (clamped (toVector (ctx_end context))).
Proof.
  intros Hwf.
  pose proof (generate_last Math_random Date_now randomAnchors curveLength context n)
    as Hl.
  destruct (sameCoords_dec (ctx_start context) (toVector (ctx_end context)))
    as [Hsame | Hdiff].
  - destruct (1 <=? stepsOf context n)%Z; [exact Hl |].
    eapply sameCoords_trans; [exact Hl |]. now apply sameCoords_clamped.
  - pose proof (generateSteps_pos context n Hwf (or_intror Hdiff)) as Hpos.
    apply Z.leb_le in Hpos. rewrite Hpos in Hl. exact Hl.
Qed.

(** C1, as amended: the first vector of the trace has the coordinates of
    the request's start clamped to be non-negative, and the last vector
    those of the resolved destination clamped likewise; they are the start
    and the destination themselves when these have no negative
    coordinate. *)
Theorem generate_endpoints_clamped (context : MovementContext) (n : nat) :
  wellFormed (ctx_end context) ->
  let vs := vectors (fst (gen context n)) in
  let start := ctx_start context in
  let finish := toVector (ctx_end context) in
  sameCoords (firstVector vs) (clamped start)
  /\ sameCoords (lastVector vs) (clamped finish)
  /\ (0 <= x start -> 0 <= y start -> sameCoords (firstVector vs) start)
  /\ (0 <= x finish -> 0 <= y finish -> sameCoords (lastVector vs) finish).
Proof.
  intros Hwf vs start finish.
  pose proof (generate_first Math_random Date_now randomAnchors curveLength context n)
    as Hf.
  pose proof (generate_last_destination context n Hwf) as Hl.
  destruct Hf as [Hfx Hfy]. destruct Hl as [Hlx Hly].
  split; [split; assumption |].
  split; [split; assumption |].
  split; intros Hx Hy.
  - destruct (clamped_id start Hx Hy) as [Hcx Hcy].
    unfold sameCoords, vs. now rewrite Hfx, Hfy.
  - destruct (clamped_id finish Hx Hy) as [Hcx Hcy].
    unfold sameCoords, vs. now rewrite Hlx, Hly.
Qed.


End Contract.

(** ** The request that stays in place *)

Section Stays.

Variable Math_random : nat -> R.
Variable Date_now : Z.
Variable randomAnchors : Vector -> Vector -> option R -> nat -> Vector * Vector * nat.
Variable curveLength : Bezier -> R.

Local Abbreviation gen := (generate Math_random Date_now randomAnchors curveLength).

Lemma clamp_of_numbers (vs : list Vector) :
  NaNAware.clampedVectors (map NaNAware.ofVector vs)
  = map NaNAware.ofVector (map clamped vs).
Proof.
  unfold NaNAware.clampedVectors. rewrite !map_map. reflexivity.
Qed.

Lemma clamp_of_hole (vs : list NaNAware.NVector) :
  Exists (fun v => NaNAware.nx v = NaNAware.NaN \/ NaNAware.ny v = NaNAware.NaN) vs ->
  ~ Forall NaNAware.onScreen (NaNAware.clampedVectors vs).
Proof.
  intros Hex Hall. apply Exists_exists in Hex. destruct Hex as [v [Hin Hnan]].
  rewrite Forall_forall in Hall.
  specialize (Hall _ (in_map _ _ _ Hin)). destruct Hall as [Hx Hy]. simpl in Hx, Hy.
  destruct Hnan as [Hn | Hn]; rewrite Hn in *; simpl in *; contradiction.
Qed.

Lemma clamp_keeps_holes (k : nat) :
  NaNAware.clampedVectors (repeat NaNAware.hole k) = repeat NaNAware.hole k.
Proof.
  unfold NaNAware.clampedVectors.
  induction k as [| k IH]; [reflexivity |].
  cbn [repeat map]. rewrite IH. reflexivity.
Qed.

Lemma clamp_stationary (p : Vector) :
  NaNAware.clampedVectors (NaNAware.stationarySamples p)
  = NaNAware.stationarySamples (clamped p).
Proof.
  pose proof (clamp_keeps_holes 99) as Hholes.
  unfold NaNAware.stationarySamples, NaNAware.clampedVectors in *.
  cbn [map]. rewrite map_app, Hholes. reflexivity.
Qed.

Lemma stationary_between (p : Vector) (i : nat) (d : NaNAware.NVector) :
  (1 <= i <= 99)%nat ->
  nth i (NaNAware.stationarySamples p) d = NaNAware.hole.
Proof.
  intros Hi. unfold NaNAware.stationarySamples.
  destruct i as [| i]; [lia |]. cbn [nth].
  rewrite app_nth1 by (rewrite repeat_length; lia).
  apply nth_repeat_lt. lia.
Qed.

Lemma stationary_length (p : Vector) :
  List.length (NaNAware.stationarySamples p) = 101%nat.
Proof.
  unfold NaNAware.stationarySamples. cbn [List.length].
  rewrite length_app, repeat_length. reflexivity.
Qed.

(** C7, at the failing input: the clamp lets [NaN] through. For the
    request that stays at (256,256) the samples between the end points are
    [NaN]; [Math.max(0, NaN)] is [NaN], so the clamp returns the samples as
    they are and the 99 vectors between the end points do not have
    [x >= 0]. Only where every sample is a number does every clamped vector
    have non-negative coordinates. *)
Theorem clamp_lets_NaN_through :
  let trace := NaNAware.clampedVectors (NaNAware.stationarySamples (vec 256 256)) in
  List.length trace = 101%nat
  /\ (forall i, (1 <= i <= 99)%nat ->
                nth i trace (NaNAware.ofVector origin) = NaNAware.hole
                /\ ~ NaNAware.onScreen (nth i trace (NaNAware.ofVector origin)))
  /\ ~ Forall NaNAware.onScreen trace
  /\ (forall vs : list Vector,
         Forall NaNAware.onScreen (NaNAware.clampedVectors (map NaNAware.ofVector vs))).
Proof.
  intros trace. unfold trace. rewrite clamp_stationary.
  split; [apply stationary_length |]. split; [| split].
  - intros i Hi. rewrite stationary_between by exact Hi.
    split; [reflexivity |]. intros [Hx _]. exact Hx.
  - rewrite <- clamp_stationary. apply clamp_of_hole.
    apply Exists_cons_tl. apply Exists_cons_hd. now left.
  - intros vs. rewrite clamp_of_numbers. apply Forall_forall. intros v Hin.
    apply in_map_iff in Hin. destruct Hin as [u [<- Hu]].
    apply in_map_iff in Hu. destruct Hu as [w [<- _]].
    unfold NaNAware.onScreen, NaNAware.ofVector; simpl. apply clamped_nonneg.
Qed.

(** In the reals, whatever the control points: the trace of a request that
    stays at [p] is not empty, its first and its last vector are the
    clamped point, [metrics.distance] is 0 and [metrics.steps] is the
    number of vectors. *)
Lemma stationary_request_numbers (p : Vector) (options : MovementOptions) (n : nat) :
  let trace := fst (gen (mkContext p (ToPoint p) options) n) in
  vectors trace <> []
  /\ sameCoords (firstVector (vectors trace)) (clamped p)
  /\ sameCoords (lastVector (vectors trace)) (clamped p)
  /\ distance (metrics trace) = 0
  /\ steps (metrics trace) = List.length (vectors trace).
Proof.
  intros trace. unfold trace. split; [apply generate_nonempty |].
  split; [apply generate_first |]. split; [| split].
  - eapply sameCoords_trans; [apply generate_last |].
    destruct (1 <=? _)%Z; apply sameCoords_clamped; split; reflexivity.
  - rewrite generate_distance. unfold magnitude, direction; simpl.
    replace (_ + _) with 0 by ring. apply sqrt_0.
  - apply generate_steps_metric.
Qed.

(** C8, at the failing input: the trace of a request that stays at [p],
    without timestamps. It is not empty: it has 101 vectors, the first and
    the last at the clamped point, [distance] is 0 and [steps] is the
    number of vectors. But the 99 vectors between the end points are [NaN]
    after the clamp as before it, and coincide with no point: not every
    vector of the trace coincides with [p]. *)
Theorem stationary_trace_has_NaN (p : Vector) :
  let trace := NaNAware.stationaryTrace p in
  NaNAware.nvectors trace <> []
  /\ List.length (NaNAware.nvectors trace) = 101%nat
  /\ NaNAware.coincides (nth 0 (NaNAware.nvectors trace) NaNAware.hole) (clamped p)
  /\ NaNAware.coincides (nth 100 (NaNAware.nvectors trace) NaNAware.hole) (clamped p)
  /\ NaNAware.ndistance trace = 0
  /\ NaNAware.nsteps trace = List.length (NaNAware.nvectors trace)
  /\ (forall i, (1 <= i <= 99)%nat ->
                nth i (NaNAware.nvectors trace) (NaNAware.ofVector p) = NaNAware.hole)
  /\ (forall i q, (1 <= i <= 99)%nat ->
                  ~ NaNAware.coincides
                      (nth i (NaNAware.nvectors trace) (NaNAware.ofVector p)) q)
  /\ ~ Forall (fun v => NaNAware.coincides v (clamped p)) (NaNAware.nvectors trace).
Proof.
  intros trace. unfold trace, NaNAware.stationaryTrace.
  cbn [NaNAware.nvectors NaNAware.nsteps NaNAware.ndistance].
  rewrite clamp_stationary.
  assert (forall i q, (1 <= i <= 99)%nat ->
            ~ NaNAware.coincides
                (nth i (NaNAware.stationarySamples (clamped p)) (NaNAware.ofVector p)) q)
    as Hbetween.
  { intros i q Hi [Hx _]. rewrite stationary_between in Hx by exact Hi. discriminate. }
  split; [intros H; apply (f_equal (@List.length _)) in H;
          rewrite stationary_length in H; discriminate |].
  split; [apply stationary_length |].
  split; [split; reflexivity |].
  split.
  { unfold NaNAware.stationarySamples.
    change 100%nat with (S 99). cbn [nth].
    rewrite app_nth2 by (rewrite repeat_length; lia).
    rewrite repeat_length. replace (99 - 99)%nat with 0%nat by lia.
    split; reflexivity. }
  split.
  { unfold magnitude, direction; simpl. replace (_ + _) with 0 by ring. apply sqrt_0. }
  split; [reflexivity |].
  split; [intros i Hi; apply stationary_between; exact Hi |].
  split; [exact Hbetween |].
  intros Hall. rewrite Forall_forall in Hall.
  apply (Hbetween 1%nat (clamped p)); [lia |].
  apply Hall. apply nth_In. rewrite stationary_length. lia.
Qed.

End Stays.

(** ** Windows of constant speed *)

Lemma bezierCurveSpeed_uniform (t d : R) (P0 P1 P2 P3 : Vector) :
  0 <= d ->
  x P1 - x P0 = d -> x P2 - x P1 = d -> x P3 - x P2 = d ->
  y P1 - y P0 = 0 -> y P2 - y P1 = 0 -> y P3 - y P2 = 0 ->
  bezierCurveSpeed t P0 P1 P2 P3 = 3 * d.
Proof.
  intros Hd Hx1 Hx2 Hx3 Hy1 Hy2 Hy3. unfold bezierCurveSpeed.
  rewrite Hx1, Hx2, Hx3, Hy1, Hy2, Hy3.
  match goal with |- sqrt ?e = _ => replace e with ((3 * d) * (3 * d)) by ring end.
  apply sqrt_square. lra.
Qed.

Lemma integrate_uniform_gen (c : R) (P0 P1 P2 P3 : Vector) (samples : nat) :
  (forall t, bezierCurveSpeed t P0 P1 P2 P3 = c) ->
  forall (fuel k : nat) (total : R),
    (k + fuel = samples)%nat ->
    integrate fuel P0 P1 P2 P3 (1 / INR samples) (INR k * (1 / INR samples)) total
    = total + INR fuel * c * (1 / INR samples).
Proof.
  intros Hc. induction fuel as [| fuel IH]; intros k total Hk.
  - simpl. ring.
  - cbn [integrate].
    assert (0 < INR samples) as Hs by (apply lt_0_INR; lia).
    assert (INR k < INR samples) as Hlt by (apply lt_INR; lia).
    destruct (Rlt_dec (INR k * (1 / INR samples)) 1) as [_ | Hge].
    + rewrite !Hc.
      replace (INR k * (1 / INR samples) + 1 / INR samples)
        with (INR (S k) * (1 / INR samples)) by (rewrite S_INR; ring).
      rewrite IH by lia. rewrite S_INR. field. lra.
    + exfalso. apply Hge.
      apply Rmult_lt_reg_r with (INR samples); [exact Hs |].
      replace (INR k * (1 / INR samples) * INR samples) with (INR k) by (field; lra).
      lra.
Qed.

Lemma integrate_uniform (c : R) (P0 P1 P2 P3 : Vector) (samples : nat) :
  (1 <= samples)%nat ->
  (forall t, bezierCurveSpeed t P0 P1 P2 P3 = c) ->
  integrate samples P0 P1 P2 P3 (1 / INR samples) 0 0 = c.
Proof.
  intros Hs Hc.
  replace 0 with (INR 0 * (1 / INR samples)) at 1 by (simpl; ring).
  rewrite (integrate_uniform_gen c P0 P1 P2 P3 samples Hc samples 0%nat 0) by lia.
  assert (0 < INR samples) by (apply lt_0_INR; lia).
  field. lra.
Qed.

Lemma chordLength_nonneg (c : Bezier) : 0 <= chordLength c.
Proof. unfold chordLength, magnitude. apply sqrt_pos. Qed.

Lemma chordLength_pos (c : Bezier) : ~ sameCoords (p0 c) (p3 c) -> 0 < chordLength c.
Proof.
  intros Hd. unfold chordLength, magnitude, direction; simpl.
  apply sqrt_lt_R0.
  pose proof (Rle_0_sqr (x (p3 c) - x (p0 c))) as Hsx.
  pose proof (Rle_0_sqr (y (p3 c) - y (p0 c))) as Hsy.
  assert (0 < Rsqr (x (p3 c) - x (p0 c)) \/ 0 < Rsqr (y (p3 c) - y (p0 c))) as Hs.
  { destruct (Req_dec_T (x (p0 c)) (x (p3 c))) as [Hx | Hx].
    - destruct (Req_dec_T (y (p0 c)) (y (p3 c))) as [Hy | Hy].
      + exfalso. apply Hd. split; assumption.
      + right. apply Rsqr_pos_lt. lra.
    - left. apply Rsqr_pos_lt. lra. }
  unfold Rsqr in *. lra.
Qed.

Lemma constRandom_range (r : R) : 0 <= r < 1 -> forall k, 0 <= constRandom r k < 1.
Proof. intros Hr k. exact Hr. Qed.

Lemma stepCount_one (len w speed hi : R) :
  0 < Math_log2 (fitts len w + 1) <= hi -> 0 <= speed ->
  (hi + speed * 25) * 3 <= 1 -> stepCount len w speed = 1%Z.
Proof.
  intros [Hlo Hhi] Hs Hone. rewrite stepCount_eq.
  apply Math_ceil_unique. simpl. nra.
Qed.

(** The inner logarithm for a curve of damped length 400 towards a target
    of width 10000. *)
Lemma easy_log_bounds : 0 < Math_log2 (fitts 400 10000 + 1) <= 1 / 5.
Proof.
  assert (0 < fitts 400 10000) as Hpos by (apply fitts_pos; lra).
  assert (fitts 400 10000 <= 1 / 8) as Hup.
  { rewrite fitts_eq.
    assert (Math_log2 (400 / 10000 + 1) <= INR 1 / INR 16) as H.
    { apply Math_log2_upper; [lra | lia |]. simpl. lra. }
    simpl in H. lra. }
  split.
  - apply Math_log2_pos. lra.
  - assert (Math_log2 (9 / 8) <= INR 1 / INR 5) as H.
    { apply Math_log2_upper; [lra | lia |]. simpl. lra. }
    simpl in H.
    pose proof (Math_log2_le (fitts 400 10000 + 1) (9 / 8)). lra.
Qed.

Lemma easyMove_length (speed : option R) (stamps : bool) (n : nat) :
  chordLength (fst (generateCurve lineAnchors (easyMove speed stamps) n)) * 0.8 = 400.
Proof.
  unfold chordLength, generateCurve, bezierCurve, magnitude, direction; simpl.
  replace ((500 - 0) * (500 - 0) + (0 - 0) * (0 - 0)) with (500 * 500) by ring.
  rewrite sqrt_square by lra. lra.
Qed.

Lemma easyMove_width (speed : option R) (stamps : bool) :
  targetWidth (ctx_end (easyMove speed stamps)) = 10000.
Proof.
  simpl. destruct (Req_dec_T 10000 0) as [H | _]; [lra | reflexivity].
Qed.

Lemma easyMove_steps (r : R) (speed : option R) (stamps : bool) :
  0 <= fst (speedFactor (constRandom r) (ctx_options (easyMove speed stamps)) 0) <= 1 / 300 ->
  generateSteps (constRandom r) lineAnchors chordLength (easyMove speed stamps) 0 = 1%Z.
Proof.
  intros [Hlo Hhi]. unfold generateSteps. rewrite easyMove_length, easyMove_width.
  apply (stepCount_one _ _ _ (1 / 5)).
  - exact easy_log_bounds.
  - exact Hlo.
  - unfold generateSpeed, generateCurve, bezierCurve; simpl in *. lra.
Qed.

Lemma sample_one (c : Bezier) :
  sample c 1 = [vec (x (p0 c)) (y (p0 c)); vec (x (p3 c)) (y (p3 c))].
Proof.
  unfold sample. simpl map.
  replace (0 / 1) with 0 by field. replace (1 / 1) with 1 by field.
  now rewrite compute_0, compute_1.
Qed.

Lemma clamped_vec (a b : R) : 0 <= a -> 0 <= b -> clamped (vec a b) = vec a b.
Proof.
  intros Ha Hb. unfold clamped, Math_max, vec; simpl.
  now rewrite !Rmax_right by assumption.
Qed.

(** The elapsed time of the only step of a two-vector path along the
    x axis. *)
Lemma two_vector_elapsed (speed d : R) :
  0 <= d ->
  elapsedAt speed [vec 0 0; vec d 0] 1 = Math_round (3 * d / speed).
Proof.
  intros Hd. unfold elapsedAt, windowAt, timeToMove. simpl nth. simpl List.length.
  simpl Nat.ltb. cbv iota.
  rewrite (integrate_uniform (3 * d)); [reflexivity | lia |].
  intros t. apply bezierCurveSpeed_uniform; unfold extrapolate; simpl; lra.
Qed.

Lemma easyMove_vectors (r : R) (now : Z) (s : R) :
  generateSteps (constRandom r) lineAnchors chordLength (easyMove (Some s) true) 0 = 1%Z ->
  vectors (lineGenerate r now (easyMove (Some s) true))
  = [mkVector 0 0 (Some now);
     mkVector 500 0 (Some (now + Math_round (3 * 500 / s))%Z)].
Proof.
  intros Hsteps. unfold lineGenerate. rewrite generate_vectors, Hsteps.
  unfold getLUT. simpl Z.to_nat. rewrite sample_one.
  unfold clampPositive, generateTimestamps, timestampSpeed. simpl.
  unfold Math_max.
  replace (Rmax 0 0) with 0 by (symmetry; apply Rmax_right; lra).
  replace (Rmax 0 500) with 500 by (symmetry; apply Rmax_right; lra).
  set (vs := [vec 0 0; vec 500 0]).
  assert (forall i acc, asVector (stampAt now vs s i acc)
            = mkVector (x (nth i vs origin)) (y (nth i vs origin))
                       (Some (ttimestamp (stampAt now vs s i acc)))) as Hrec.
  { intros i acc. unfold asVector.
    destruct (stampAt_coords now vs s i acc) as [-> ->]. reflexivity. }
  rewrite !Hrec. rewrite (stampAt_next now vs s 1) by lia.
  unfold vs. rewrite two_vector_elapsed by lra.
  reflexivity.
Qed.

Lemma bezierCurveSpeed_coords (t : R) (P0 P1 P2 P3 Q0 Q1 Q2 Q3 : Vector) :
  sameCoords P0 Q0 -> sameCoords P1 Q1 -> sameCoords P2 Q2 -> sameCoords P3 Q3 ->
  bezierCurveSpeed t P0 P1 P2 P3 = bezierCurveSpeed t Q0 Q1 Q2 Q3.
Proof.
  intros [H0x H0y] [H1x H1y] [H2x H2y] [H3x H3y]. unfold bezierCurveSpeed.
  now rewrite H0x, H0y, H1x, H1y, H2x, H2y, H3x, H3y.
Qed.

Lemma integrate_coords (fuel : nat) (P0 P1 P2 P3 Q0 Q1 Q2 Q3 : Vector) (dt t total : R) :
  sameCoords P0 Q0 -> sameCoords P1 Q1 -> sameCoords P2 Q2 -> sameCoords P3 Q3 ->
  integrate fuel P0 P1 P2 P3 dt t total = integrate fuel Q0 Q1 Q2 Q3 dt t total.
Proof.
  intros H0 H1 H2 H3. revert t total.
  induction fuel as [| fuel IH]; intros t total; simpl; [reflexivity |].
  destruct (Rlt_dec t 1); [| reflexivity].
  rewrite (bezierCurveSpeed_coords (t * dt) _ _ _ _ _ _ _ _ H0 H1 H2 H3).
  rewrite (bezierCurveSpeed_coords t _ _ _ _ _ _ _ _ H0 H1 H2 H3).
  apply IH.
Qed.

Lemma extrapolate_coords (a b a' b' : Vector) :
  sameCoords a a' -> sameCoords b b' ->
  sameCoords (extrapolate a b) (extrapolate a' b').
Proof.
  intros [Hax Hay] [Hbx Hby]. unfold sameCoords, extrapolate; simpl.
  now rewrite Hax, Hay, Hbx, Hby.
Qed.

(** The elapsed time of a window reads coordinates only. *)
Lemma elapsedAt_coords (speed : R) (l1 l2 : list Vector) (i : nat) :
  List.length l1 = List.length l2 ->
  (forall j, (j < List.length l1)%nat -> sameCoords (nth j l1 origin) (nth j l2 origin)) ->
  (1 <= i < List.length l1)%nat ->
  elapsedAt speed l1 i = elapsedAt speed l2 i.
Proof.
  intros Hlen Hnth Hi. unfold elapsedAt, windowAt, timeToMove.
  rewrite <- Hlen.
  assert (sameCoords (nth (i - 1) l1 origin) (nth (i - 1) l2 origin)) as H0
      by (apply Hnth; lia).
  assert (sameCoords (nth i l1 origin) (nth i l2 origin)) as H1 by (apply Hnth; lia).
  set (P2 := if (i + 1 <? List.length l1)%nat then nth (i + 1) l1 origin
             else extrapolate (nth (i - 1) l1 origin) (nth i l1 origin)).
  set (Q2 := if (i + 1 <? List.length l1)%nat then nth (i + 1) l2 origin
             else extrapolate (nth (i - 1) l2 origin) (nth i l2 origin)).
  assert (sameCoords P2 Q2) as H2.
  { unfold P2, Q2. destruct (Nat.ltb_spec (i + 1) (List.length l1)).
    - apply Hnth; lia.
    - now apply extrapolate_coords. }
  set (P3 := if (i + 2 <? List.length l1)%nat then nth (i + 2) l1 origin
             else extrapolate (nth i l1 origin) P2).
  set (Q3 := if (i + 2 <? List.length l1)%nat then nth (i + 2) l2 origin
             else extrapolate (nth i l2 origin) Q2).
  assert (sameCoords P3 Q3) as H3.
  { unfold P3, Q3. destruct (Nat.ltb_spec (i + 2) (List.length l1)).
    - apply Hnth; lia.
    - now apply extrapolate_coords. }
  now rewrite (integrate_coords _ _ _ _ _ _ _ _ _ _ _ _ H0 H1 H2 H3).
Qed.

Lemma sameCoords_sym (a b : Vector) : sameCoords a b -> sameCoords b a.
Proof. intros [Hx Hy]. split; congruence. Qed.



Section Timing.

Variable Math_random : nat -> R.
Variable Date_now : Z.
Variable randomAnchors : Vector -> Vector -> option R -> nat -> Vector * Vector * nat.
Variable curveLength : Bezier -> R.

Hypothesis Math_random_range : forall k, 0 <= Math_random k < 1.

Local Abbreviation gen := (generate Math_random Date_now randomAnchors curveLength).
Local Abbreviation curveOf context n := (fst (generateCurve randomAnchors context n)).
Local Abbreviation stepsOf := (generateSteps Math_random randomAnchors curveLength).
Local Abbreviation speedOf := (generateSpeed Math_random randomAnchors).


Lemma generate_stamps (context : MovementContext) (n : nat) :
  useTimestamps (ctx_options context) = Some true ->
  let vs := vectors (fst (gen context n)) in
  let divisor := fst (timestampSpeed Math_random (ctx_options context)
                                     (snd (speedOf context n))) in
  (forall i, (i < List.length vs)%nat -> timestamp (nth i vs origin) <> None)
  /\ stampOf (nth 0 vs origin) = Date_now
  /\ (forall i, (1 <= i < List.length vs)%nat ->
        stampOf (nth i vs origin)
        = (stampOf (nth (i - 1) vs origin) + elapsedAt divisor vs i)%Z).
Proof.
  intros Hts vs divisor.
  set (lut := getLUT (curveOf context n) (stepsOf context n)).
  pose proof (clampPositive_timed Math_random Date_now lut (ctx_options context)
                (snd (speedOf context n)) Hts) as [Hsome [Hfirst Hnext]].
  assert (vs = fst (clampPositive Math_random Date_now lut (ctx_options context)
                                  (snd (speedOf context n)))) as Hvs
      by (unfold vs; apply generate_vectors).
  assert (List.length vs = List.length lut) as Hlen
      by (rewrite Hvs; apply clampPositive_length).
  rewrite <- Hvs in Hsome, Hfirst, Hnext.
  split; [| split].
  - intros i Hi. apply Hsome. lia.
  - apply Hfirst. unfold lut, getLUT. intros Hnil.
    pose proof (sample_length (curveOf context n) (Z.to_nat (stepsOf context n))) as Hl.
    rewrite Hnil in Hl. discriminate.
  - intros i Hi. rewrite Hnext by lia. f_equal.
    fold divisor. symmetry. apply elapsedAt_coords.
    + now rewrite length_map.
    + intros j Hj. rewrite (nth_map_in clamped lut j origin origin) by lia.
      rewrite Hvs. apply clampPositive_coords. lia.
    + lia.
Qed.

End Timing.

Section Durations.

Variable Math_random : nat -> R.
Variable Date_now : Z.
Variable randomAnchors : Vector -> Vector -> option R -> nat -> Vector * Vector * nat.
Variable curveLength : Bezier -> R.

Hypothesis Math_random_range : forall k, 0 <= Math_random k < 1.

Local Abbreviation gen := (generate Math_random Date_now randomAnchors curveLength).
Local Abbreviation curveOf context n := (fst (generateCurve randomAnchors context n)).
Local Abbreviation stepsOf := (generateSteps Math_random randomAnchors curveLength).
Local Abbreviation speedOf := (generateSpeed Math_random randomAnchors).





End Durations.

(** ** Runs on the straight-line host *)

Lemma easyMove_speed_negative (r : R) (stamps : bool) :
  fst (speedFactor (constRandom r) (ctx_options (easyMove (Some (-1)) stamps)) 0) = r.
Proof.
  unfold speedFactor, random; simpl.
  destruct (Rlt_dec 0 (-1)) as [H | H]; [lra | reflexivity].
Qed.


(** C1, counterexample: for the request that starts off screen at (-50,-25)
    the first vector of the trace is not the start. *)
Lemma first_vector_is_not_offscreen_start :
  ~ sameCoords (firstVector (vectors (lineGenerate (1 / 2) 0 offscreenMove)))
               (ctx_start offscreenMove).
Proof.
  intros [Hx _].
  destruct (generate_first (constRandom (1 / 2)) 0%Z lineAnchors chordLength
                           offscreenMove 0) as [Hfx _].
  destruct offscreen_clamped_start as [Hcx _].
  unfold lineGenerate in Hx. rewrite Hfx, Hcx in Hx. simpl in Hx. lra.
Qed.

Lemma generate_endpoints_clamped_witness :
  let vs := vectors (lineGenerate (1 / 2) 0 offscreenMove) in
  sameCoords (firstVector vs) (clamped (vec (-50) (-25)))
  /\ sameCoords (lastVector vs) (clamped (vec 10 5)).
Proof.
  destruct (generate_endpoints_clamped
              (constRandom (1 / 2)) 0%Z lineAnchors chordLength
              (constRandom_range (1 / 2) ltac:(lra)) chordLength_nonneg chordLength_pos
              offscreenMove 0%nat I) as [Hf [Hl _]].
  split; [exact Hf | exact Hl].
Defined.

(** C2, at the failing input: with [moveSpeed = -1] and timestamps
    requested, the second timestamp of the two-vector trace is 1500 ms
    before the first, and [metrics.duration] is -1500. *)
Theorem negative_moveSpeed_timestamps_decrease (now : Z) :
  let trace := lineGenerate 0 now (easyMove (Some (-1)) true) in
  map timestamp (vectors trace) = [Some now; Some (now - 1500)%Z]
  /\ duration (metrics trace) = Some (-1500)%Z.
Proof.
  intros trace.
  assert (vectors trace
          = [mkVector 0 0 (Some now); mkVector 500 0 (Some (now - 1500)%Z)]) as Hvs.
  { unfold trace. rewrite easyMove_vectors.
    - replace (3 * 500 / -1) with (IZR (-1500)) by (simpl; field).
      rewrite Math_round_IZR. reflexivity.
    - apply easyMove_steps. rewrite easyMove_speed_negative. lra. }
  split.
  - rewrite Hvs. reflexivity.
  - unfold trace, lineGenerate in *. rewrite generate_metrics, Hvs.
    unfold buildMetrics, computeDuration; simpl. f_equal. lia.
Qed.





Section Speeds.

Variable Math_random : nat -> R.
Variable Date_now : Z.
Variable randomAnchors : Vector -> Vector -> option R -> nat -> Vector * Vector * nat.
Variable curveLength : Bezier -> R.

Hypothesis Math_random_range : forall k, 0 <= Math_random k < 1.
Hypothesis curveLength_nonneg : forall c, 0 <= curveLength c.

Local Abbreviation gen := (generate Math_random Date_now randomAnchors curveLength).
Local Abbreviation curveOf context n := (fst (generateCurve randomAnchors context n)).
Local Abbreviation stepsOf := (generateSteps Math_random randomAnchors curveLength).
Local Abbreviation speedOf := (generateSpeed Math_random randomAnchors).


(** C6, as amended: with the start, the destination's coordinates, the
    options and the draws fixed, a narrower target never yields fewer steps
    than a wider one; and with width and speed factor fixed, a longer curve
    never yields fewer steps than a shorter one. The increase need not be
    strict, the count being rounded up to an integer. *)
Theorem step_count_monotone :
  (forall (start : Vector) (bx by_ h1 h2 w1 w2 : R) (options : MovementOptions)
          (n : nat),
      0 < w1 -> w1 <= w2 ->
      (stepsOf (mkContext start (ToBox (mkBox bx by_ w2 h2)) options) n
       <= stepsOf (mkContext start (ToBox (mkBox bx by_ w1 h1)) options) n)%Z)
  /\ (forall len1 len2 w speed : R,
         0 < w -> 0 <= len1 -> len1 <= len2 ->
         (stepCount len1 w speed <= stepCount len2 w speed)%Z).
Proof.
  split.
  - intros start bx by_ h1 h2 w1 w2 options n Hw1 H12.
    unfold generateSteps, generateSpeed, generateCurve; simpl.
    destruct (Req_dec_T w2 0) as [H2 | _]; [lra |].
    destruct (Req_dec_T w1 0) as [H1 | _]; [lra |].
    apply stepCount_anti_width; [exact Hw1 | exact H12 |].
    pose proof (curveLength_nonneg
                  (fst (bezierCurve randomAnchors start (vec bx by_)
                                    (spreadOverride options) n))).
    lra.
  - intros len1 len2 w speed. apply stepCount_mono_length.
Qed.

End Speeds.


Lemma step_count_monotone_witness :
  (generateSteps (constRandom 0) lineAnchors chordLength (boxMove 100) 0
   <= generateSteps (constRandom 0) lineAnchors chordLength (boxMove 75) 0)%Z.
Proof.
  destruct (step_count_monotone (constRandom 0) lineAnchors chordLength
                                chordLength_nonneg) as [Hwidth _].
  apply (Hwidth (vec 0 0) (375 / 4) 0 150 150 75 100); lra.
Defined.

(** The inner logarithm for a curve of damped length 75 towards targets of
    width 75 and 100. *)
Lemma log_bounds_75_75 : 3 / 2 <= Math_log2 (fitts 75 75 + 1) <= 8 / 5.
Proof.
  assert (fitts 75 75 + 1 = 3) as ->.
  { rewrite fitts_eq. replace (75 / 75 + 1) with 2 by field.
    unfold Math_log2. pose proof ln_2_pos. field. lra. }
  split.
  - assert (INR 3 / INR 2 <= Math_log2 3) as H
        by (apply Math_log2_lower; [lra | lia | simpl; lra]).
    simpl in H. lra.
  - assert (Math_log2 3 <= INR 8 / INR 5) as H
        by (apply Math_log2_upper; [lra | lia | simpl; lra]).
    simpl in H. lra.
Qed.

Lemma log_bounds_75_100 : 11 / 8 <= Math_log2 (fitts 75 100 + 1) <= 8 / 5.
Proof.
  assert (8 / 5 <= fitts 75 100 <= 2) as [Hlo Hhi].
  { rewrite fitts_eq. replace (75 / 100 + 1) with (7 / 4) by field.
    assert (INR 4 / INR 5 <= Math_log2 (7 / 4)) as H1
        by (apply Math_log2_lower; [lra | lia | simpl; lra]).
    assert (Math_log2 (7 / 4) <= INR 1 / INR 1) as H2
        by (apply Math_log2_upper; [lra | lia | simpl; lra]).
    simpl in H1, H2. lra. }
  split.
  - assert (INR 11 / INR 8 <= Math_log2 (13 / 5)) as H
        by (apply Math_log2_lower; [lra | lia | simpl; lra]).
    simpl in H.
    pose proof (Math_log2_le (13 / 5) (fitts 75 100 + 1)). lra.
  - assert (Math_log2 3 <= INR 8 / INR 5) as H
        by (apply Math_log2_upper; [lra | lia | simpl; lra]).
    simpl in H.
    pose proof (Math_log2_le (fitts 75 100 + 1) 3). lra.
Qed.

Lemma boxMove_steps (w : R) :
  w <> 0 ->
  generateSteps (constRandom 0) lineAnchors chordLength (boxMove w) 0
  = stepCount 75 w (25 / 75).
Proof.
  intros Hw. unfold generateSteps, generateSpeed, generateCurve, bezierCurve,
               speedFactor, chordLength, magnitude, direction; simpl.
  destruct (Req_dec_T w 0) as [H0 | _]; [contradiction |].
  destruct (Rlt_dec 0 75) as [_ | Hn]; [| lra]. simpl.
  replace ((375 / 4 - 0) * (375 / 4 - 0) + (0 - 0) * (0 - 0))
    with ((375 / 4) * (375 / 4)) by ring.
  rewrite sqrt_square by lra. f_equal. lra.
Qed.

(** C6, counterexample: at equal distance, the target of width 75 is
    sampled in as many steps as the wider target of width 100. *)
Lemma narrower_target_same_steps :
  generateSteps (constRandom 0) lineAnchors chordLength (boxMove 75) 0 = 30%Z
  /\ generateSteps (constRandom 0) lineAnchors chordLength (boxMove 100) 0 = 30%Z
  /\ ~ (generateSteps (constRandom 0) lineAnchors chordLength (boxMove 100) 0
        < generateSteps (constRandom 0) lineAnchors chordLength (boxMove 75) 0)%Z.
Proof.
  assert (generateSteps (constRandom 0) lineAnchors chordLength (boxMove 75) 0 = 30%Z)
    as H75.
  { rewrite boxMove_steps by lra.
    apply (stepCount_between _ _ _ (3 / 2) (8 / 5));
      [exact log_bounds_75_75 | simpl; lra | simpl; lra]. }
  assert (generateSteps (constRandom 0) lineAnchors chordLength (boxMove 100) 0 = 30%Z)
    as H100.
  { rewrite boxMove_steps by lra.
    apply (stepCount_between _ _ _ (11 / 8) (8 / 5));
      [exact log_bounds_75_100 | simpl; lra | simpl; lra]. }
  split; [exact H75 |]. split; [exact H100 |].
  rewrite H75, H100. lia.
Qed.

(** ** The facade *)

Section Facade.

Variable W : Type.

(** C5, counterexample: the facade hands back a trace with no vector, and
    a trace whose end points are not those of the request, as results. *)
Lemma facade_returns_contract_violations :
  MovementEngine_generate emptyAlgorithm (vec 0 0) (ToPoint (vec 1 1)) None tt
  = (Returned emptyTrace, tt)
  /\ vectors emptyTrace = []
  /\ MovementEngine_generate strayAlgorithm (vec 0 0) (ToPoint (vec 1 1)) None tt
     = (Returned strayTrace, tt)
  /\ ~ sameCoords (firstVector (vectors strayTrace)) (vec 0 0)
  /\ ~ sameCoords (lastVector (vectors strayTrace)) (vec 1 1).
Proof.
  split; [reflexivity |]. split; [reflexivity |]. split; [reflexivity |].
  split; intros [Hx _]; simpl in Hx; lra.
Qed.

(** C5, as amended: the facade checks nothing. Whatever the algorithm's
    [generate] gives for the request with normalized options, a trace of any
    shape or a thrown error, is the result of the facade; the options it
    passes have [useTimestamps] set, [false] when the caller left it
    unset. *)
Theorem facade_forwards_outcome (algorithm : MovementAlgorithm W)
        (start : Vector) (end_ : Destination) (options : option MovementOptions)
        (w : W) :
  exists context : MovementContext,
    MovementEngine_generate algorithm start end_ options w
    = alg_generate algorithm context w
    /\ ctx_start context = start
    /\ ctx_end context = end_
    /\ spreadOverride (ctx_options context)
       = match options with Some o => spreadOverride o | None => None end
    /\ moveSpeed (ctx_options context)
       = match options with Some o => moveSpeed o | None => None end
    /\ useTimestamps (ctx_options context)
       = Some (match options with
               | Some o => match useTimestamps o with Some b => b | None => false end
               | None => false
               end).
Proof.
  exists (mkContext start end_ (normalizeOptions options)).
  repeat split; reflexivity.
Qed.

End Facade.

(** ** The controller *)

Section Chaining.

Import Controller.

Variable W : Type.
Variable dispatch : Vector -> W -> bool * W.
Variable algorithm : MovementAlgorithm W.
Variable defaultOptions : MoveOptions.

Local Abbreviation moveTo' := (moveTo W dispatch algorithm defaultOptions).
Local Abbreviation moves' := (moves W dispatch algorithm defaultOptions).

(** A path dispatched in full leaves the position at its last vector. *)
Lemma tracePath_success (vs : list Vector) (position position' : Vector) (w w' : W) :
  tracePath W dispatch vs position w = (true, position', w') ->
  position' = nth (List.length vs - 1) vs position.
Proof.
  revert position w. induction vs as [| v rest IH]; intros position w H; simpl in H.
  - injection H as <- _. reflexivity.
  - destruct (dispatch v w) as [ok w1]. destruct ok; [| discriminate].
    rewrite (IH v w1 H).
    destruct rest as [| v' rest']; [reflexivity |].
    replace (List.length (v :: v' :: rest') - 1)%nat
      with (S (List.length rest')) by (simpl; lia).
    replace (List.length (v' :: rest') - 1)%nat
      with (List.length rest') by (simpl; lia).
    change (nth (S (List.length rest')) (v :: v' :: rest') position)
      with (nth (List.length rest') (v' :: rest') position).
    apply nth_indep. simpl. lia.
Qed.

(** A failed dispatch is reported: the path is not a success. *)
Lemma tracePath_failure (vs : list Vector) (position : Vector) (w : W) :
  (exists v, In v vs /\ forall w0, fst (dispatch v w0) = false) ->
  fst (fst (tracePath W dispatch vs position w)) = false.
Proof.
  revert position w. induction vs as [| v rest IH]; intros position w [u [Hin Hfail]].
  - destruct Hin.
  - simpl. destruct (dispatch v w) as [ok w1] eqn:Hd. destruct ok; [| reflexivity].
    apply IH. destruct Hin as [-> | Hin].
    + pose proof (Hfail w) as H. rewrite Hd in H. discriminate.
    + exists u. split; assumption.
Qed.

Lemma moveTo_success (c c' : CursorState) (destination : Destination)
      (options : option MoveOptions) (w w' : W) (trace : MovementTrace) :
  moveTo' c destination options w = (Moved trace, c', w') ->
  vectors trace <> [] ->
  location c' = lastVector (vectors trace).
Proof.
  unfold moveTo. intros H Hne.
  destruct (MovementEngine_generate algorithm _ _ _ w) as [outcome w1].
  destruct outcome as [tr | msg]; [| discriminate].
  destruct (tracePath W dispatch (vectors tr) (location c) w1) as [[ok position] w2] eqn:Hp.
  destruct ok; [| discriminate].
  injection H as -> <- _. simpl.
  rewrite (tracePath_success _ _ _ _ _ Hp). unfold lastVector.
  apply nth_indep. destruct (vectors trace); [contradiction | simpl; lia].
Qed.

Lemma moveTo_position (c c' : CursorState) (destination : Destination)
      (options : option MoveOptions) (w w' : W) (trace : MovementTrace) :
  moveTo' c destination options w = (Moved trace, c', w') ->
  location c' = positionAfter (location c) trace.
Proof.
  unfold moveTo. intros H.
  destruct (MovementEngine_generate algorithm _ _ _ w) as [outcome w1].
  destruct outcome as [tr | msg]; [| discriminate].
  destruct (tracePath W dispatch (vectors tr) (location c) w1) as [[ok position] w2] eqn:Hp.
  destruct ok; [| discriminate].
  injection H as -> <- _. simpl.
  apply (tracePath_success _ _ _ _ _ Hp).
Qed.

Local Abbreviation watched := (observed algorithm).
Local Abbreviation watchedDispatch := (observedDispatch dispatch).
Local Abbreviation watchedMoveTo :=
  (moveTo (W * list MovementContext) watchedDispatch watched defaultOptions).
Local Abbreviation watchedMoves :=
  (moves (W * list MovementContext) watchedDispatch watched defaultOptions).

(** Dispatching beside an observed algorithm is dispatching, the record
    untouched. *)
Lemma tracePath_observed (vs : list Vector) (position : Vector) (w : W)
      (seen : list MovementContext) :
  tracePath (W * list MovementContext) watchedDispatch vs position (w, seen)
  = let '(ok, position', w') := tracePath W dispatch vs position w in
    (ok, position', (w', seen)).
Proof.
  revert position w. induction vs as [| v rest IH]; intros position w; simpl.
  - reflexivity.
  - unfold observedDispatch at 1; simpl.
    destruct (dispatch v w) as [ok w1]. destruct ok; [apply IH | reflexivity].
Qed.

(** A move with an observed algorithm is the same move, and the request
    recorded is the one handed to the algorithm: it starts at the position
    of the cursor. *)
Lemma moveTo_observed (c : CursorState) (destination : Destination)
      (options : option MoveOptions) (w : W) (seen : list MovementContext) :
  exists request,
    ctx_start request = location c
    /\ ctx_end request = destination
    /\ watchedMoveTo c destination options (w, seen)
       = let '(result, c', w') := moveTo' c destination options w in
         (result, c', (w', seen ++ [request])).
Proof.
  eexists. split; [| split]; [| | unfold moveTo, MovementEngine_generate; simpl].
  3: { destruct (alg_generate algorithm _ w) as [outcome w1]; simpl.
       destruct outcome as [trace | message]; [| reflexivity].
       rewrite tracePath_observed.
       destruct (tracePath W dispatch (vectors trace) (location c) w1)
         as [[ok position] w2].
       reflexivity. }
  - reflexivity.
  - reflexivity.
Qed.

(** Observation changes nothing: the traces and the final position of an
    observed sequence are those of the sequence itself. *)
Lemma moves_observed (calls : list (Destination * option MoveOptions))
      (c : CursorState) (w : W) (seen : list MovementContext) :
  match watchedMoves calls c (w, seen) with
  | Some (traces, c', (w', seen')) =>
      moves' calls c w = Some (traces, c', w')
      /\ exists requests,
           seen' = seen ++ requests
           /\ map ctx_start requests = chainedStarts (location c) traces
  | None => moves' calls c w = None
  end.
Proof.
  revert c w seen.
  induction calls as [| [destination options] rest IH]; intros c w seen.
  - simpl. split; [reflexivity |]. exists []. split; [now rewrite app_nil_r | reflexivity].
  - cbn [moves].
    destruct (moveTo_observed c destination options w seen)
      as [request [Hstart [_ Heq]]].
    rewrite Heq.
    destruct (moveTo' c destination options w) as [[result c1] w1] eqn:Hm.
    destruct result as [trace | message |]; try reflexivity.
    specialize (IH c1 w1 (seen ++ [request])).
    destruct (watchedMoves rest c1 (w1, seen ++ [request]))
      as [[[traces c2] [w2 seen2]] |].
    + destruct IH as [-> [requests [-> Hstarts]]].
      split; [reflexivity |].
      exists (request :: requests). split; [now rewrite <- app_assoc |].
      simpl. rewrite Hstart. f_equal.
      rewrite <- (moveTo_position _ _ _ _ _ _ _ Hm). exact Hstarts.
    + now rewrite IH.
Qed.

Lemma chainedStarts_next (traces : list MovementTrace) :
  forall (position : Vector) (i : nat) (trace : MovementTrace) (start : Vector),
    nth_error traces i = Some trace ->
    nth_error (chainedStarts position traces) (S i) = Some start ->
    vectors trace <> [] ->
    start = lastVector (vectors trace).
Proof.
  induction traces as [| first rest IH]; intros position i trace start Ht Hs Hne.
  - destruct i; discriminate.
  - destruct i as [| i].
    + simpl in Ht. injection Ht as ->. simpl in Hs.
      destruct rest as [| second rest']; [discriminate |].
      simpl in Hs. injection Hs as <-.
      unfold positionAfter, lastVector. apply nth_indep.
      destruct (vectors trace); [contradiction | simpl; lia].
    + simpl in Ht, Hs. exact (IH _ i trace start Ht Hs Hne).
Qed.

(** C9: in a sequence of successful [moveTo] calls on one controller, the
    requests the algorithm is handed start where the moves before them
    ended: the first at the position of the cursor, and the request of move
    N+1 at the last vector that move N dispatched and committed, with its
    timestamp when it has one. *)
Theorem chained_moves_continuous (calls : list (Destination * option MoveOptions))
        (c c' : CursorState) (w w' : W) (seen seen' : list MovementContext)
        (traces : list MovementTrace) :
  watchedMoves calls c (w, seen) = Some (traces, c', (w', seen')) ->
  exists requests : list MovementContext,
    seen' = seen ++ requests
    /\ List.length requests = List.length traces
    /\ map ctx_start requests = chainedStarts (location c) traces
    /\ forall (i : nat) (trace : MovementTrace) (request : MovementContext),
         nth_error traces i = Some trace ->
         nth_error requests (S i) = Some request ->
         vectors trace <> [] ->
         ctx_start request = lastVector (vectors trace).
Proof.
  intros Hrun.
  pose proof (moves_observed calls c w seen) as H. rewrite Hrun in H.
  destruct H as [_ [requests [Hseen Hstarts]]].
  exists requests. split; [exact Hseen |].
  assert (forall (position : Vector) (l : list MovementTrace),
             List.length (chainedStarts position l) = List.length l) as Hlen.
  { intros position l. revert position.
    induction l as [| t l IHl]; intros position; simpl; [reflexivity |].
    now rewrite IHl. }
  split; [| split; [exact Hstarts |]].
  - rewrite <- (Hlen (location c) traces), <- Hstarts. now rewrite length_map.
  - intros i trace request Ht Hr Hne.
    apply (chainedStarts_next traces (location c) i trace); [exact Ht | | exact Hne].
    rewrite <- Hstarts. now rewrite nth_error_map, Hr.
Qed.

End Chaining.

(** Evaluation of a scripted run: the reals stay as they are written. *)
Ltac run_scripted :=
  cbv -[IZR Req_dec_T magnitude direction toVector Z.sub]; reflexivity.

Lemma chained_moves_continuous_witness :
  exists traces c' h' requests,
    Controller.moves _ (Controller.observedDispatch mockSend)
                     (Controller.observed scriptedAlgorithm) scriptedDefaults
                     scriptedCalls (Controller.mkCursor (vec 48 48)) (scriptedHost, [])
    = Some (traces, c', (h', requests))
    /\ map ctx_start requests
       = [vec 48 48; mkVector 300 110 (Some 32%Z); mkVector 512 240 (Some 80%Z)]
    /\ map ctx_start (contexts h') = map ctx_start requests
    /\ Controller.getLocation c' = mkVector 752 512 (Some 135%Z)
    /\ List.length (sent h') = 10%nat.
Proof.
  eexists. eexists. eexists. eexists.
  match goal with
  | |- ?run /\ _ => assert run as Hrun by run_scripted
  end.
  split; [exact Hrun |].
  destruct (chained_moves_continuous _ mockSend scriptedAlgorithm scriptedDefaults
              _ _ _ _ _ _ _ _ Hrun) as [requests [Hseen [_ [Hstarts _]]]].
  simpl in Hseen. subst requests.
  split; [| split; [run_scripted | split; run_scripted]].
  rewrite Hstarts. run_scripted.
Defined.

(** * Further properties of the code *)

(** ** Further properties of the facade and of the metrics *)

(** X1: normalizing options twice is normalizing them once, and normalized
    options always say whether timestamps are wanted. *)
Theorem normalizeOptions_idempotent (options : option MovementOptions) :
  normalizeOptions (Some (normalizeOptions options)) = normalizeOptions options
  /\ useTimestamps (normalizeOptions options) <> None
  /\ (useTimestamps (normalizeOptions options) = Some true <->
      exists o, options = Some o /\ useTimestamps o = Some true).
Proof.
  split; [| split].
  - destruct options as [[so ms [b |]] |]; reflexivity.
  - destruct options as [[so ms [b |]] |]; discriminate.
  - split.
    + destruct options as [[so ms [[|] |]] |]; simpl; intros H; try discriminate.
      eexists. split; reflexivity.
    + intros [o [-> Ho]]. unfold normalizeOptions. now rewrite Ho.
Qed.

Section MetricsFacts.

Variable Math_random : nat -> R.
Variable Date_now : Z.
Variable randomAnchors : Vector -> Vector -> option R -> nat -> Vector * Vector * nat.
Variable curveLength : Bezier -> R.

Local Abbreviation gen := (generate Math_random Date_now randomAnchors curveLength).
Local Abbreviation curveOf context n := (fst (generateCurve randomAnchors context n)).
Local Abbreviation stepsOf := (generateSteps Math_random randomAnchors curveLength).
Local Abbreviation speedOf := (generateSpeed Math_random randomAnchors).

(** X2: the metrics of a trace agree with the trace and the request:
    [steps] counts the vectors, [width] is the width of the target region
    when it has one that is not 0 and the default 100 otherwise, so never
    0, and [distance] is never negative. *)
Theorem generate_metrics_consistent (context : MovementContext) (n : nat) :
  let trace := fst (gen context n) in
  steps (metrics trace) = List.length (vectors trace)
  /\ width (metrics trace) <> 0
  /\ (forall b, ctx_end context = ToBox b -> box_width b <> 0 ->
                width (metrics trace) = box_width b)
  /\ (forall b, ctx_end context = ToBox b -> box_width b = 0 ->
                width (metrics trace) = 100)
  /\ (forall p, ctx_end context = ToPoint p -> width (metrics trace) = 100)
  /\ 0 <= distance (metrics trace).
Proof.
  intros trace. subst trace. rewrite generate_metrics.
  unfold buildMetrics; simpl.
  split; [reflexivity |].
  split; [| split; [| split; [| split]]].
  - destruct (ctx_end context) as [p | b]; simpl; unfold DEFAULT_WIDTH.
    + lra.
    + destruct (Req_dec_T (box_width b) 0); [lra | assumption].
  - intros b -> Hb. simpl. destruct (Req_dec_T (box_width b) 0); [contradiction | reflexivity].
  - intros b -> Hb. simpl. destruct (Req_dec_T (box_width b) 0); [reflexivity | contradiction].
  - intros p ->. reflexivity.
  - unfold magnitude. apply sqrt_pos.
Qed.

(** X3: timestamps are all or none. With timestamps requested every vector
    of the trace carries one and the first is the reading of the clock;
    otherwise no vector carries one, even when the start of the request
    did. *)
Theorem generate_timestamps_all_or_none (context : MovementContext) (n : nat) :
  let vs := vectors (fst (gen context n)) in
  (useTimestamps (ctx_options context) = Some true ->
   Forall (fun v => timestamp v <> None) vs
   /\ timestamp (firstVector vs) = Some Date_now)
  /\ (useTimestamps (ctx_options context) <> Some true ->
      Forall (fun v => timestamp v = None) vs).
Proof.
  intros vs. split.
  - intros Hts.
    destruct (generate_stamps Math_random Date_now randomAnchors curveLength
                              context n Hts) as [Hsome [Hfirst _]].
    fold vs in Hsome, Hfirst. split.
    + apply Forall_forall. intros v Hin.
      destruct (In_nth _ _ origin Hin) as [i [Hi <-]]. now apply Hsome.
    + unfold firstVector, stampOf in *.
      pose proof (generate_length Math_random Date_now randomAnchors curveLength
                                  context n) as Hlen. fold vs in Hlen.
      pose proof (Hsome 0%nat ltac:(lia)) as H0.
      destruct (timestamp (nth 0 vs origin)) as [t |]; [| contradiction].
      now rewrite Hfirst.
  - intros Hno. unfold vs. rewrite generate_vectors.
    rewrite clampPositive_untimed by exact Hno.
    apply Forall_forall. intros v Hin. apply in_map_iff in Hin.
    destruct Hin as [u [<- _]]. reflexivity.
Qed.

(** X6: the draws one call makes after the control points are placed: none
    when [moveSpeed] is given and positive; one when it is given and not
    positive; one when it is absent and no timestamps are requested; two
    when it is absent and timestamps are requested. *)
Theorem generate_draws (context : MovementContext) (n : nat) :
  let options := ctx_options context in
  let n1 := snd (generateCurve randomAnchors context n) in
  let after := snd (gen context n) in
  (forall s, moveSpeed options = Some s -> 0 < s -> after = n1)
  /\ (forall s, moveSpeed options = Some s -> s <= 0 -> after = S n1)
  /\ (moveSpeed options = None -> useTimestamps options <> Some true -> after = S n1)
  /\ (moveSpeed options = None -> useTimestamps options = Some true ->
      after = S (S n1)).
Proof.
  intros options n1 after. subst options n1 after.
  unfold generate, generateCurve.
  destruct (bezierCurve randomAnchors _ _ _ n) as [curve n1]. simpl snd.
  unfold speedFactor, clampPositive, generateTimestamps, timestampSpeed, random.
  repeat split.
  - intros s Hs Hpos. rewrite Hs.
    destruct (Rlt_dec 0 s) as [_ | Hn]; [| contradiction].
    destruct (useTimestamps (ctx_options context)) as [[|] |]; reflexivity.
  - intros s Hs Hneg. rewrite Hs.
    destruct (Rlt_dec 0 s) as [Hp | _]; [lra |].
    destruct (useTimestamps (ctx_options context)) as [[|] |]; reflexivity.
  - intros Hs Hno. rewrite Hs.
    destruct (useTimestamps (ctx_options context)) as [[|] |];
      try reflexivity. now contradiction Hno.
  - intros Hs Hts. rewrite Hs, Hts. reflexivity.
Qed.

End MetricsFacts.

(** ** Order of the timestamps *)


Section StampOrder.

Variable Math_random : nat -> R.
Variable Date_now : Z.
Variable randomAnchors : Vector -> Vector -> option R -> nat -> Vector * Vector * nat.
Variable curveLength : Bezier -> R.

Hypothesis Math_random_range : forall k, 0 <= Math_random k < 1.

Local Abbreviation gen := (generate Math_random Date_now randomAnchors curveLength).


End StampOrder.

Section StampOrderNegative.

Variable Math_random : nat -> R.
Variable Date_now : Z.
Variable randomAnchors : Vector -> Vector -> option R -> nat -> Vector * Vector * nat.
Variable curveLength : Bezier -> R.

Local Abbreviation gen := (generate Math_random Date_now randomAnchors curveLength).


End StampOrderNegative.




(** ** Step count, speed and scale *)

Section StepsAndSpeed.

Variable Math_random : nat -> R.
Variable randomAnchors : Vector -> Vector -> option R -> nat -> Vector * Vector * nat.
Variable curveLength : Bezier -> R.

Hypothesis Math_random_range : forall k, 0 <= Math_random k < 1.
Hypothesis curveLength_nonneg : forall c, 0 <= curveLength c.

Local Abbreviation stepsOf := (generateSteps Math_random randomAnchors curveLength).
Local Abbreviation speedOf := (generateSpeed Math_random randomAnchors).

(** X7: a faster move is never sampled in more steps. With the start, the
    destination, the spread, the timestamp flag and the draws fixed, a
    larger positive [moveSpeed] gives at most as many steps as a smaller
    one. *)
Theorem faster_move_no_more_steps (start : Vector) (end_ : Destination)
        (spread : option R) (stamps : option bool) (s1 s2 : R) (n : nat) :
  0 < s1 -> s1 <= s2 ->
  (stepsOf (mkContext start end_ (mkOptions spread (Some s2) stamps)) n
   <= stepsOf (mkContext start end_ (mkOptions spread (Some s1) stamps)) n)%Z.
Proof.
  intros H1 H12. unfold generateSteps, generateSpeed, generateCurve, speedFactor; simpl.
  destruct (Rlt_dec 0 s2) as [_ | Hn]; [| lra].
  destruct (Rlt_dec 0 s1) as [_ | Hn]; [| lra]. simpl.
  apply stepCount_mono_speed.
  unfold Rdiv. apply Rmult_le_compat_l; [lra |].
  apply Rinv_le_contravar; assumption.
Qed.

(** X8: the lower bound the step count does have: it is at least
    [ceil(75 * speedFactor)], so at least [ceil(1875 / moveSpeed)] for a
    positive [moveSpeed]. *)
Theorem step_count_speed_floor (context : MovementContext) (n : nat) :
  wellFormed (ctx_end context) ->
  (Math_ceil (75 * fst (speedOf context n)) <= stepsOf context n)%Z
  /\ (forall s, moveSpeed (ctx_options context) = Some s -> 0 < s ->
                (Math_ceil (1875 / s) <= stepsOf context n)%Z).
Proof.
  intros Hwf.
  assert (Math_ceil (75 * fst (speedOf context n)) <= stepsOf context n)%Z as Hfloor.
  { unfold generateSteps. rewrite stepCount_eq. apply Math_ceil_mono.
    pose proof (targetWidth_pos _ Hwf) as Hw.
    pose proof (curveLength_nonneg (fst (generateCurve randomAnchors context n))) as Hl.
    pose proof (fitts_nonneg (curveLength (fst (generateCurve randomAnchors context n)) * 0.8)
                             (targetWidth (ctx_end context)) Hw ltac:(lra)) as Hf.
    pose proof (Math_log2_nonneg
                  (fitts (curveLength (fst (generateCurve randomAnchors context n)) * 0.8)
                         (targetWidth (ctx_end context)) + 1) ltac:(lra)).
    lra. }
  split; [exact Hfloor |].
  intros s Hs Hpos.
  replace (1875 / s) with (75 * fst (speedOf context n)); [exact Hfloor |].
  unfold generateSpeed, speedFactor. rewrite Hs.
  destruct (Rlt_dec 0 s) as [_ | Hn]; [| contradiction]. simpl. field. lra.
Qed.

End StepsAndSpeed.

(** X9: the difficulty index reads the ratio of distance to width only:
    scaling both by the same factor changes neither the index nor the step
    count; at distance 0 the index is 0. *)
Theorem fitts_scale_invariant (d w k speed : R) :
  k <> 0 -> w <> 0 ->
  fitts (k * d) (k * w) = fitts d w
  /\ stepCount (k * d) (k * w) speed = stepCount d w speed
  /\ fitts 0 w = 0.
Proof.
  intros Hk Hw.
  assert (fitts (k * d) (k * w) = fitts d w) as Hf.
  { rewrite !fitts_eq. f_equal. f_equal. f_equal. field. split; assumption. }
  split; [exact Hf |]. split.
  - rewrite !stepCount_eq. now rewrite Hf.
  - rewrite fitts_eq. replace (0 / w + 1) with 1 by (field; exact Hw).
    rewrite Math_log2_1. ring.
Qed.

Lemma faster_move_no_more_steps_witness :
  (generateSteps (constRandom 0) lineAnchors chordLength (axisMove 90) 0
   <= generateSteps (constRandom 0) lineAnchors chordLength (axisMove 45) 0)%Z.
Proof.
  apply (faster_move_no_more_steps (constRandom 0) lineAnchors chordLength); lra.
Defined.

Lemma step_count_speed_floor_witness :
  (Math_ceil (1875 / 75)
   <= generateSteps (constRandom 0) lineAnchors chordLength stationaryMove 0)%Z.
Proof.
  destruct (step_count_speed_floor (constRandom 0) lineAnchors chordLength
                                   chordLength_nonneg stationaryMove 0%nat I)
    as [_ Hs].
  apply (Hs 75 eq_refl). lra.
Defined.

Lemma fitts_scale_invariant_witness : fitts (2 * 75) (2 * 100) = fitts 75 100.
Proof.
  destruct (fitts_scale_invariant 75 100 2 0) as [H _]; [lra | lra | exact H].
Defined.

(** ** Windows, stationary paths and the clock *)

Lemma bezierCurveSpeed_even (t dx dy : R) (P0 P1 P2 P3 : Vector) :
  x P1 - x P0 = dx -> x P2 - x P1 = dx -> x P3 - x P2 = dx ->
  y P1 - y P0 = dy -> y P2 - y P1 = dy -> y P3 - y P2 = dy ->
  bezierCurveSpeed t P0 P1 P2 P3 = 3 * sqrt (dx * dx + dy * dy).
Proof.
  intros Hx1 Hx2 Hx3 Hy1 Hy2 Hy3. unfold bezierCurveSpeed.
  rewrite Hx1, Hx2, Hx3, Hy1, Hy2, Hy3.
  match goal with
  | |- sqrt ?e = _ => replace e with ((3 * 3) * (dx * dx + dy * dy)) by ring
  end.
  rewrite sqrt_mult_alt by lra. rewrite sqrt_square by lra. reflexivity.
Qed.

Section Stationary.

Variable Math_random : nat -> R.
Variable Date_now : Z.

Lemma integrate_still (fuel : nat) (P0 P1 P2 P3 : Vector) (dt t total : R) :
  (forall u, bezierCurveSpeed u P0 P1 P2 P3 = 0) ->
  integrate fuel P0 P1 P2 P3 dt t total = total.
Proof.
  intros Hz. revert t total. induction fuel as [| fuel IH]; intros t total; simpl.
  - reflexivity.
  - destruct (Rlt_dec t 1); [| reflexivity].
    rewrite !Hz, IH. unfold Rdiv. ring.
Qed.

Lemma elapsedAt_still (speed : R) (vs : list Vector) (p : Vector) (i : nat) :
  (forall j, sameCoords (nth j vs origin) p \/ (List.length vs <= j)%nat) ->
  (1 <= i < List.length vs)%nat ->
  elapsedAt speed vs i = 0%Z.
Proof.
  intros Hall Hi. unfold elapsedAt, windowAt, timeToMove.
  assert (forall j, (j < List.length vs)%nat -> sameCoords (nth j vs origin) p) as Hin.
  { intros j Hj. destruct (Hall j) as [H | H]; [exact H | lia]. }
  destruct (Hin (i - 1)%nat ltac:(lia)) as [H0x H0y].
  destruct (Hin i ltac:(lia)) as [H1x H1y].
  set (P2 := if (i + 1 <? List.length vs)%nat then nth (i + 1) vs origin
             else extrapolate (nth (i - 1) vs origin) (nth i vs origin)).
  assert (sameCoords P2 p) as [H2x H2y].
  { unfold P2. destruct (Nat.ltb_spec (i + 1) (List.length vs)).
    - apply Hin. lia.
    - unfold sameCoords, extrapolate; simpl. rewrite H0x, H0y, H1x, H1y.
      split; ring. }
  set (P3 := if (i + 2 <? List.length vs)%nat then nth (i + 2) vs origin
             else extrapolate (nth i vs origin) P2).
  assert (sameCoords P3 p) as [H3x H3y].
  { unfold P3. destruct (Nat.ltb_spec (i + 2) (List.length vs)).
    - apply Hin. lia.
    - unfold sameCoords, extrapolate; simpl. rewrite H1x, H1y, H2x, H2y.
      split; ring. }
  rewrite integrate_still.
  - replace (0 / speed) with (IZR 0) by (unfold Rdiv; ring).
    apply Math_round_IZR.
  - intros u. rewrite (bezierCurveSpeed_even u 0 0); [| lra ..].
    replace (0 * 0 + 0 * 0) with 0 by ring. rewrite sqrt_0. ring.
Qed.

(** X11: a path that does not move takes no time: when all the vectors
    have the same coordinates, [generateTimestamps] gives every one of them
    the reading of the clock (for a divisor that is not 0). *)
Theorem stationary_path_timestamps (vs : list Vector) (o : MovementOptions)
        (n : nat) (p : Vector) :
  fst (timestampSpeed Math_random o n) <> 0 ->
  Forall (fun v => sameCoords v p) vs ->
  let timed := fst (generateTimestamps Math_random Date_now vs o n) in
  List.length timed = List.length vs
  /\ Forall (fun t => ttimestamp t = Date_now) timed.
Proof.
  intros _ Hall timed. unfold timed, generateTimestamps.
  destruct (timestampSpeed Math_random o n) as [speed n']; simpl.
  split; [apply stamped_length |].
  set (r := stampLoop Date_now vs speed (List.length vs) 0 []).
  assert (forall i, (i < List.length vs)%nat ->
                    ttimestamp (nth i r timedOrigin) = Date_now) as Hnth.
  { induction i as [| i IH]; intros Hi.
    - unfold r. rewrite stamped_nth by exact Hi. apply stampAt_first.
    - unfold r. rewrite stamped_nth by exact Hi.
      rewrite stampAt_next by lia. fold r.
      replace (S i - 1)%nat with i by lia. rewrite IH by lia.
      rewrite (elapsedAt_still speed vs p); [lia | | lia].
      intros j. destruct (Nat.lt_ge_cases j (List.length vs)) as [Hj | Hj];
        [left | right; exact Hj].
      rewrite Forall_forall in Hall. apply Hall. now apply nth_In. }
  apply Forall_forall. intros t Hin.
  destruct (In_nth _ _ timedOrigin Hin) as [i [Hi <-]].
  apply Hnth. unfold r in Hi. now rewrite stamped_length in Hi.
Qed.

End Stationary.

Lemma stationary_path_timestamps_witness :
  Forall (fun t => ttimestamp t = 1700000000000%Z)
         (fst (generateTimestamps (constRandom 0) 1700000000000
                                  [vec 256 256; vec 256 256; vec 256 256]
                                  (mkOptions None (Some 75) (Some true)) 0)).
Proof.
  apply (stationary_path_timestamps (constRandom 0) 1700000000000%Z
           [vec 256 256; vec 256 256; vec 256 256]
           (mkOptions None (Some 75) (Some true)) 0%nat (vec 256 256)).
  - simpl. lra.
  - repeat constructor.
Defined.

(** ** The clock, the clamp and the facade *)

Section ClockShift.

Variable Math_random : nat -> R.
Variable randomAnchors : Vector -> Vector -> option R -> nat -> Vector * Vector * nat.
Variable curveLength : Bezier -> R.

Local Abbreviation genAt now := (generate Math_random now randomAnchors curveLength).



End ClockShift.


Section ClampTwice.

Variable Math_random : nat -> R.
Variable Date_now : Z.

(** X13: without timestamps [clampPositive] makes no draw, keeps the number
    and the order of the vectors, leaves a vector without negative
    coordinate as it is, and clamping its result again changes nothing. *)
Theorem clampPositive_idempotent (vs : list Vector) (o : MovementOptions) (n : nat) :
  useTimestamps o <> Some true ->
  let once := clampPositive Math_random Date_now vs o n in
  snd once = n
  /\ List.length (fst once) = List.length vs
  /\ (forall i, (i < List.length vs)%nat ->
                0 <= x (nth i vs origin) -> 0 <= y (nth i vs origin) ->
                sameCoords (nth i (fst once) origin) (nth i vs origin))
  /\ fst (clampPositive Math_random Date_now (fst once) o n) = fst once.
Proof.
  intros Hno once. unfold once.
  split; [| split; [| split]].
  - unfold clampPositive. destruct (useTimestamps o) as [[|] |]; try reflexivity.
    now contradiction Hno.
  - apply clampPositive_length.
  - intros i Hi Hx Hy.
    eapply sameCoords_trans; [now apply clampPositive_coords |].
    now apply clamped_id.
  - rewrite !clampPositive_untimed by exact Hno.
    rewrite map_map. apply map_ext. intros v.
    unfold clamped, Math_max, vec; simpl.
    rewrite !(Rmax_right 0 (Rmax 0 _)) by apply Rmax_l. reflexivity.
Qed.

End ClampTwice.

Lemma clampPositive_idempotent_witness :
  fst (clampPositive (constRandom 0) 0
         (fst (clampPositive (constRandom 0) 0 [vec (-50) (-25); vec 10 5]
                             (mkOptions None None (Some false)) 0))
         (mkOptions None None (Some false)) 0)
  = fst (clampPositive (constRandom 0) 0 [vec (-50) (-25); vec 10 5]
                       (mkOptions None None (Some false)) 0).
Proof.
  destruct (clampPositive_idempotent (constRandom 0) 0%Z [vec (-50) (-25); vec 10 5]
              (mkOptions None None (Some false)) 0%nat ltac:(discriminate))
    as [_ [_ [_ H]]].
  exact H.
Defined.


(** ** The path does not depend on the timestamp flag *)

Section FlagIndependence.

Variable Math_random : nat -> R.
Variable Date_now : Z.
Variable randomAnchors : Vector -> Vector -> option R -> nat -> Vector * Vector * nat.
Variable curveLength : Bezier -> R.

Local Abbreviation gen := (generate Math_random Date_now randomAnchors curveLength).

(** X15: timestamps are an annotation of the path. Two requests that
    differ in [useTimestamps] only, run from the same draws, give traces
    with the same number of vectors, the same coordinates, and the same
    [steps], [distance] and [width]. *)
Theorem path_independent_of_timestamp_flag (start : Vector) (end_ : Destination)
        (spread speed : option R) (flag1 flag2 : option bool) (n : nat) :
  let trace1 := fst (gen (mkContext start end_ (mkOptions spread speed flag1)) n) in
  let trace2 := fst (gen (mkContext start end_ (mkOptions spread speed flag2)) n) in
  List.length (vectors trace1) = List.length (vectors trace2)
  /\ (forall i, (i < List.length (vectors trace1))%nat ->
                sameCoords (nth i (vectors trace1) origin)
                           (nth i (vectors trace2) origin))
  /\ steps (metrics trace1) = steps (metrics trace2)
  /\ distance (metrics trace1) = distance (metrics trace2)
  /\ width (metrics trace1) = width (metrics trace2).
Proof.
  intros trace1 trace2. unfold trace1, trace2. clear trace1 trace2.
  set (c1 := mkContext start end_ (mkOptions spread speed flag1)).
  set (c2 := mkContext start end_ (mkOptions spread speed flag2)).
  assert (generateSteps Math_random randomAnchors curveLength c1 n
          = generateSteps Math_random randomAnchors curveLength c2 n) as Hsteps
      by reflexivity.
  assert (List.length (vectors (fst (gen c1 n))) = List.length (vectors (fst (gen c2 n))))
    as Hlen by (rewrite !generate_length; now rewrite Hsteps).
  split; [exact Hlen |]. split; [| split; [| split]].
  - intros i Hi. rewrite generate_length in Hi.
    eapply sameCoords_trans; [apply generate_nth; lia |].
    apply sameCoords_sym.
    pose proof (generate_nth Math_random Date_now randomAnchors curveLength c2 n i) as H2.
    rewrite <- Hsteps in H2. apply H2. lia.
  - rewrite !generate_metrics. simpl. exact Hlen.
  - rewrite !generate_metrics. reflexivity.
  - rewrite !generate_metrics. reflexivity.
Qed.

End FlagIndependence.

(** ** The scripted algorithm of the tests *)

Lemma scripted_call (context : MovementContext) (h : ScriptedHost)
      (next : ScriptedSegment) (rest : list ScriptedSegment) :
  segments h = next :: rest -> seg_vectors next <> [] ->
  exists trace,
    alg_generate scriptedAlgorithm context h
    = (Returned trace, mkHost rest (contexts h ++ [context]) (sent h))
    /\ vectors trace = seg_vectors next
    /\ steps (metrics trace) = List.length (seg_vectors next).
Proof.
  intros Hs Hne. unfold scriptedAlgorithm; simpl. rewrite Hs.
  destruct (seg_vectors next) as [| v vs] eqn:Hv; [contradiction |].
  eexists. split; [reflexivity |]. split; reflexivity.
Qed.

(** X16: the scripted algorithm is a queue. Over as many calls as there
    are segments left (none of them empty) it returns the segments in
    order, each with [steps] equal to its number of vectors, records the
    requests in order and leaves the other segments; with no segment left
    a call throws and records nothing. *)
Theorem scripted_replay_in_order (requests : list MovementContext) (h : ScriptedHost) :
  Forall (fun s => seg_vectors s <> []) (segments h) ->
  (List.length requests <= List.length (segments h))%nat ->
  let '(outcomes, h') := replay requests h in
  map outcomeVectors outcomes
  = map (fun s => Some (seg_vectors s)) (firstn (List.length requests) (segments h))
  /\ map outcomeSteps outcomes
     = map (fun s => Some (List.length (seg_vectors s)))
           (firstn (List.length requests) (segments h))
  /\ contexts h' = contexts h ++ requests
  /\ segments h' = skipn (List.length requests) (segments h)
  /\ sent h' = sent h
  /\ forall context,
       segments h' = [] ->
       exists message, alg_generate scriptedAlgorithm context h' = (Threw message, h').
Proof.
  revert h. induction requests as [| context rest IH]; intros h Hne Hlen.
  - simpl. split; [reflexivity |]. split; [reflexivity |].
    split; [now rewrite app_nil_r |].
    split; [reflexivity |]. split; [reflexivity |].
    intros context Hnil. unfold scriptedAlgorithm; simpl. rewrite Hnil.
    eexists. reflexivity.
  - destruct (segments h) as [| next segs] eqn:Hs; [simpl in Hlen; lia |].
    inversion Hne as [| ? ? Hnext Hrest]; subst.
    destruct (scripted_call context h next segs Hs Hnext) as [trace [Hcall [Hv Hst]]].
    cbn [replay]. rewrite Hcall.
    specialize (IH (mkHost segs (contexts h ++ [context]) (sent h)) Hrest
                   ltac:(simpl in *; lia)).
    destruct (replay rest (mkHost segs (contexts h ++ [context]) (sent h)))
      as [outcomes h'].
    destruct IH as [Ho [Hn [Hc [Hseg [Hsent Hthrow]]]]].
    simpl in Ho, Hn, Hc, Hseg, Hsent.
    split; [| split; [| split; [| split; [| split]]]].
    + simpl. rewrite Hv, Ho. reflexivity.
    + simpl. rewrite Hst, Hn. reflexivity.
    + rewrite Hc, <- app_assoc. reflexivity.
    + simpl. exact Hseg.
    + exact Hsent.
    + exact Hthrow.
Qed.

Lemma scripted_replay_in_order_witness :
  map outcomeVectors
      (fst (replay [stationaryMove; offscreenMove; stationaryMove] scriptedHost))
  = map (fun s => Some (seg_vectors s)) scriptedSegments
  /\ map outcomeSteps
         (fst (replay [stationaryMove; offscreenMove; stationaryMove] scriptedHost))
     = map (fun s => Some (List.length (seg_vectors s))) scriptedSegments.
Proof.
  pose proof (scripted_replay_in_order
                [stationaryMove; offscreenMove; stationaryMove] scriptedHost) as H.
  destruct (replay [stationaryMove; offscreenMove; stationaryMove] scriptedHost)
    as [outcomes h'].
  destruct H as [Ho [Hn _]].
  - repeat constructor; discriminate.
  - simpl. lia.
  - split; [exact Ho | exact Hn].
Defined.
